(** * resector: the RandomResection transform

    A shallow embedding of [resector/random_resection.py].

    - Python floats and ints are exact rationals ([Q]); the values torch
      samples into a [FloatTensor] are binary32 numbers, and the rounding
      to binary32 is written out ([round32]).
    - The sample record and the parameter dictionary are Python dicts:
      finite maps from strings ([gmap string _]).
    - The process-wide torch generator is an explicit state: a stream of
      unit draws and a position in it.
    - Exceptions are values of [exn]; a computation is a state-and-error
      function [S -> (exn + A) * S], and the state reached when an
      exception is raised is kept, as a Python caller sees it.
    - [nib_to_sitk] (module [.io]), [_resect] (module [.resector]) and the
      SimpleITK image type are not part of the two source files; they are
      parameters of the section that defines [__call__]. *)

From Stdlib Require Import QArith Qround Qabs Qpower Lqa.
From stdpp Require Import gmap strings list fin_maps.

Local Open Scope Z_scope.
Local Open Scope nat_scope.

(** ** Exceptions and the state-and-error monad *)

Inductive exn : Type :=
  | ValueError (msg : string)
  | KeyError (key : string)
  | TypeError
  | IndexError
  | RuntimeError
  | AssertionError
  | ForeignError (tag : string).

Definition M (S A : Type) : Type := S → (exn + A) * S.

Definition ret {S A} (a : A) : M S A := λ s, (inr a, s).

Definition raise {S A} (e : exn) : M S A := λ s, (inl e, s).

Definition bind {S A B} (c : M S A) (k : A → M S B) : M S B :=
  λ s, match c s with
       | (inr a, s') => k a s'
       | (inl e, s') => (inl e, s')
       end.

Notation "'let*' x := c 'in' k" := (bind c (λ x, k))
  (at level 10, x name, c at level 100, k at level 200).
Notation "'run' c 'then' k" := (bind c (λ _, k))
  (at level 10, c at level 100, k at level 200).

(** A pure step that may raise. *)
Definition of_sum {S A} (r : exn + A) : M S A :=
  match r with
  | inr a => ret a
  | inl e => raise e
  end.

(** ** The random generator (torch's global generator) *)

Record rng : Type := { rng_draws : nat → Q; rng_pos : nat }.

(** ** binary32 arithmetic

    A [FloatTensor] holds IEEE 754 binary32 numbers: 24 significant bits,
    exponents from -126, subnormals on the grid of 2^-149, rounding to
    nearest with ties to even. *)

Definition pow2 (z : Z) : Q := Qpower 2 z.

(** The binary exponent [floor (log2 x)] of a positive rational. *)
Definition ilog2 (x : Q) : Z :=
  let e0 := (Z.log2 (Qnum x) - Z.log2 (Zpos (Qden x)))%Z in
  if Qle_bool (pow2 e0) x then e0 else (e0 - 1)%Z.

(** The nearest integer, ties to even. *)
Definition rne (x : Q) : Z :=
  let f := Qfloor x in
  match Qcompare (x - inject_Z f) (1 # 2) with
  | Lt => f
  | Gt => (f + 1)%Z
  | Eq => if Z.even f then f else (f + 1)%Z
  end.

(** The exponent of the last bit of the binary32 numbers around [x]. *)
Definition quantum_exp (x : Q) : Z := (Z.max (ilog2 x) (-126) - 23)%Z.

Definition round_pos (x : Q) : Q :=
  (inject_Z (rne (x / pow2 (quantum_exp x))) * pow2 (quantum_exp x))%Q.

(** The binary32 number nearest to [x]. Overflow is left out: [uniform_]
    refuses bounds beyond the binary32 range before it rounds anything. *)
Definition round32 (x : Q) : Q :=
  match Qcompare x 0 with
  | Eq => 0%Q
  | Gt => round_pos x
  | Lt => (- round_pos (- x))%Q
  end.

(** The largest binary32 number, and the relative and absolute error of
    one rounding. *)
Definition max32 : Q := ((pow2 24 - 1) * pow2 104)%Q.
Definition eps32 : Q := pow2 (-24).

Definition is_float32 (f : Q) : Prop :=
  ∃ r c, (Z.abs r < 2 ^ 24)%Z ∧ (-149 <= c)%Z ∧
         (f == inject_Z r * pow2 c)%Q.

(** Every value of the stream is a unit draw as torch makes one for a
    float: 24 random bits times 2^-24. *)
Definition unit_draws (g : rng) : Prop :=
  ∀ i, ∃ k, (0 <= k < 2 ^ 24)%Z ∧ (rng_draws g i == inject_Z k * eps32)%Q.

Definition advance (g : rng) : rng :=
  {| rng_draws := rng_draws g; rng_pos := S (rng_pos g) |}.

(** [torch.rand(1)]: the next unit draw. *)
Definition torch_rand : M rng Q :=
  λ g, (inr (rng_draws g (rng_pos g)), advance g).

(** One sample between two binary32 bounds: [x * (to - from) + from] in
    binary32 arithmetic, each operation rounded. *)
Definition sample32 (from to u : Q) : Q :=
  round32 (round32 (u * round32 (to - from)) + from).

(** One sample of [uniform_(lo, hi)]: the bounds are cast to binary32. *)
Definition scale (lo hi u : Q) : Q := sample32 (round32 lo) (round32 hi) u.

(** The checks of [uniform_]: both bounds within the binary32 range,
    [lo <= hi], and a width within the range. *)
Definition range_ok (lo hi : Q) : bool :=
  Qle_bool (- max32) lo && Qle_bool lo max32
  && Qle_bool (- max32) hi && Qle_bool hi max32
  && Qle_bool lo hi && Qle_bool (hi - lo) max32.

Fixpoint uniform_fill (n : nat) (lo hi : Q) : M rng (list Q) :=
  match n with
  | O => ret []
  | S n' =>
      let* u := torch_rand in
      let* rest := uniform_fill n' lo hi in
      ret (scale lo hi u :: rest)
  end.

(** [torch.FloatTensor(n).uniform_(lo, hi)]: refused with [RuntimeError]
    when a check fails, before any draw; [n] successive draws otherwise. *)
Definition uniform_ (n : nat) (lo hi : Q) : M rng (list Q) :=
  if range_ok lo hi then uniform_fill n lo hi else raise RuntimeError.

(** [t.item()] on a one-element tensor. *)
Definition item {S} (t : list Q) : M S Q :=
  match t with
  | [x] => ret x
  | _ =>
      raise (ValueError "only one element tensors can be converted to scalars")
  end.

(** The index a unit draw selects among [n]. *)
Definition index_of (n : nat) (u : Q) : nat :=
  Z.to_nat (Qfloor (u * inject_Z (Z.of_nat n))).

(** [torch.randint(n, (1,)).item()]: refused for an empty range. *)
Definition torch_randint (n : nat) : M rng nat :=
  match n with
  | O => raise RuntimeError
  | S _ => let* u := torch_rand in ret (index_of n u)
  end.

(** ** Hemisphere *)

Inductive Hemisphere : Type := LEFT | RIGHT.

Definition Hemisphere_value (h : Hemisphere) : string :=
  match h with
  | LEFT => "left"
  | RIGHT => "right"
  end.

(** ** Values of the parameter dictionary *)

Inductive pvalue : Type :=
  | PStr (s : string)
  | PEnum (h : Hemisphere)
  | PNum (x : Q)
  | PList (xs : list Q).

(** ** The transform's configuration *)

Record RandomResection : Type := {
  volumes : option (list Q);
  volumes_range : option (Q * Q);
  sigmas_range : Q * Q;
  radii_ratio_range : Q * Q;
  angles_range : Q * Q;
  delete_keys : bool;
  verbose : bool
}.

Definition default_sigmas_range : Q * Q := (1 # 2, 1)%Q.
Definition default_radii_ratio_range : Q * Q := (1 # 2, 3 # 2)%Q.
Definition default_angles_range : Q * Q := (0, 180)%Q.
Definition default_delete_keys : bool := true.
Definition default_verbose : bool := false.

Definition is_None {A} (o : option A) : bool :=
  match o with
  | None => true
  | Some _ => false
  end.

Definition __init__
    (volumes_range0 : option (Q * Q)) (volumes0 : option (list Q))
    (sigmas_range0 radii_ratio_range0 angles_range0 : Q * Q)
    (delete_keys0 verbose0 : bool) : M rng RandomResection :=
  if is_None volumes0 && is_None volumes_range0
     || negb (is_None volumes0) && negb (is_None volumes_range0)
  then raise (ValueError "Please enter a value for volumes or volumes_range")
  else ret {| volumes := volumes0;
              volumes_range := volumes_range0;
              sigmas_range := sigmas_range0;
              radii_ratio_range := radii_ratio_range0;
              angles_range := angles_range0;
              delete_keys := delete_keys0;
              verbose := verbose0 |}.

(** Construction with the keyword defaults of the signature. *)
Definition __init__defaults
    (volumes_range0 : option (Q * Q)) (volumes0 : option (list Q))
    : M rng RandomResection :=
  __init__ volumes_range0 volumes0 default_sigmas_range
    default_radii_ratio_range default_angles_range default_delete_keys
    default_verbose.


(** ** Parameter sampling *)

Definition flip_coin : M rng bool :=
  let* u := torch_rand in ret (Qle_bool (1 # 2) u).

Definition get_params
    (volumes0 : option (list Q)) (volumes_range0 : option (Q * Q))
    (sigmas_range0 radii_ratio_range0 angles_range0 : Q * Q)
    : M rng (gmap string pvalue) :=
  let* coin := flip_coin in
  let hemisphere := if coin then LEFT else RIGHT in
  let* volume :=
    match volumes0 with
    | None =>
        match volumes_range0 with
        | None => raise TypeError
        | Some (lo, hi) => let* t := uniform_ 1 lo hi in item t
        end
    | Some vs =>
        let* index := torch_randint (length vs) in
        match vs !! index with
        | Some v => ret v
        | None => raise IndexError
        end
    end in
  let* sigmas := uniform_ 3 (fst sigmas_range0) (snd sigmas_range0) in
  let* t := uniform_ 1 (fst radii_ratio_range0) (snd radii_ratio_range0) in
  let* radii_ratio := item t in
  let* angles := uniform_ 3 (fst angles_range0) (snd angles_range0) in
  let parameters : gmap string pvalue :=
    <["angles" := PList angles]>
      (<["radii_ratio" := PNum radii_ratio]>
        (<["sigmas" := PList sigmas]>
          (<["volume" := PNum volume]>
            (<["hemisphere" := PStr (Hemisphere_value hemisphere)]> ∅)))) in
  ret parameters.

(** ** numpy arrays: a shape and the elements in row-major order *)

Record ndarray : Type := { shape : list nat; data : list Q }.

Definition ndim (a : ndarray) : nat := length (shape a).

Definition size_of (s : list nat) : nat := foldr Nat.mul 1 s.

(** The invariant of a numpy array: as many elements as the shape says. *)
Definition well_shaped (a : ndarray) : Prop :=
  length (data a) = size_of (shape a).

(** [a[i]]: the [i]-th slice along the first axis. *)
Definition slice (i : nat) (a : ndarray) : exn + ndarray :=
  match shape a with
  | [] => inl IndexError
  | n :: s =>
      if decide (i < n)
      then inr {| shape := s;
                  data := take (size_of s) (drop (i * size_of s) (data a)) |}
      else inl IndexError
  end.

(** [array.transpose(2, 1, 0)]. *)
Definition transpose_210 (a : ndarray) : exn + ndarray :=
  match shape a with
  | [n0; n1; n2] =>
      inr {| shape := [n2; n1; n0];
             data :=
               flat_map (λ i,
                 flat_map (λ j,
                   map (λ k, nth (k * (n1 * n2) + j * n2 + i) (data a) 0%Q)
                       (seq 0 n0))
                   (seq 0 n1))
                 (seq 0 n2) |}
  | _ => inl (ValueError "axes don't match array")
  end.

(** [1 - a], elementwise. *)
Definition rsub_one (a : ndarray) : ndarray :=
  {| shape := shape a; data := map (λ v, (1 - v)%Q) (data a) |}.

(** [np.stack(arrays)]: a new first axis. *)
Definition np_stack (arrays : list ndarray) : exn + ndarray :=
  match arrays with
  | [] => inl (ValueError "need at least one array to stack")
  | a :: rest =>
      if forallb (λ b, bool_decide (shape b = shape a)) rest
      then inr {| shape := length arrays :: shape a;
                  data := concat (map data arrays) |}
      else inl (ValueError "all input arrays must have the same shape")
  end.

Definition add_channels_axis (array : ndarray) : ndarray :=
  {| shape := 1 :: shape array; data := data array |}.

Definition add_background_channel (foreground : ndarray) : exn + ndarray :=
  let background := rsub_one foreground in
  np_stack [background; foreground].

(** ** The sample record *)

Inductive value : Type :=
  | VArray (a : ndarray)
  | VAffine (m : list (list Q))
  | VParams (p : gmap string pvalue)
  | VOther (tag : string).

(** [v[0]] on a value of the sample. *)
Definition getitem0 (v : value) : exn + value :=
  match v with
  | VArray a => match slice 0 a with
                | inr a0 => inr (VArray a0)
                | inl e => inl e
                end
  | VParams _ => inl (KeyError "0")
  | VAffine [] => inl IndexError
  | VAffine (row :: _) => inr (VArray {| shape := [length row]; data := row |})
  | VOther _ => inl TypeError
  end.

Record world : Type := {
  w_rng : rng;
  w_sample : gmap string value;
  w_stdout : list string
}.

Definition lift_rng {A} (c : M rng A) : M world A :=
  λ w, let (r, g) := c (w_rng w) in
       (r, {| w_rng := g; w_sample := w_sample w; w_stdout := w_stdout w |}).

Definition with_sample (f : gmap string value → gmap string value)
    (w : world) : world :=
  {| w_rng := w_rng w; w_sample := f (w_sample w); w_stdout := w_stdout w |}.

(** [sample[key]] *)
Definition sample_get (key : string) : M world value :=
  λ w, match w_sample w !! key with
       | Some v => (inr v, w)
       | None => (inl (KeyError key), w)
       end.

(** [sample[key] = v] *)
Definition sample_set (key : string) (v : value) : M world unit :=
  λ w, (inr tt, with_sample (insert key v) w).

(** [del sample[key]] *)
Definition sample_del (key : string) : M world unit :=
  λ w, match w_sample w !! key with
       | Some _ => (inr tt, with_sample (delete key) w)
       | None => (inl (KeyError key), w)
       end.

(** [print(label ...)]; the duration printed after the label is wall-clock
    time and is left out. *)
Definition print (line : string) : M world unit :=
  λ w, (inr tt, {| w_rng := w_rng w; w_sample := w_sample w;
                   w_stdout := w_stdout w ++ [line] |}).

Definition when {S} (b : bool) (c : M S unit) : M S unit :=
  if b then c else ret tt.

Definition assert {S} (b : bool) : M S unit :=
  if b then ret tt else raise AssertionError.

(** [params[key]] *)
Definition dict_get {S} (params : gmap string pvalue) (key : string)
    : M S pvalue :=
  match params !! key with
  | Some v => ret v
  | None => raise (KeyError key)
  end.

(** The text an f-string puts for a parameter; [get_params] stores a string
    under "hemisphere", the only value formatted. *)
Definition format_field {S} (v : pvalue) : M S string :=
  match v with
  | PStr s => ret s
  | _ => raise TypeError
  end.

Section Transform.

(** The collaborators outside the two source files: SimpleITK's image
    type with [sitk.GetArrayFromImage], [nib_to_sitk] of module [.io] and
    [_resect] of module [.resector]. Both functions may raise; [_resect]
    may draw random numbers. Neither is handed the sample record. *)
Variable SitkImage : Type.
Variable GetArrayFromImage : SitkImage → ndarray.
Variable nib_to_sitk : value → value → exn + SitkImage.
Variable _resect :
  SitkImage → SitkImage → SitkImage → SitkImage →
  pvalue → pvalue → pvalue → pvalue → bool →
  M rng (SitkImage * SitkImage * pvalue).

Definition sitk_to_array (image : SitkImage) : exn + ndarray :=
  let array := GetArrayFromImage image in
  transpose_210 array.

Definition __call__ (self : RandomResection)
    : M world (gmap string value) :=
  let* resection_params :=
    lift_rng (get_params (volumes self) (volumes_range self)
                (sigmas_range self) (radii_ratio_range self)
                (angles_range self)) in
  let* image := sample_get "image" in
  let* image0 := of_sum (getitem0 image) in
  let* affine := sample_get "affine" in
  let* brain := of_sum (nib_to_sitk image0 affine) in
  let* hemisphere_field := dict_get resection_params "hemisphere" in
  let* hemisphere := format_field hemisphere_field in
  let* gray_matter := sample_get ("gray_matter_" +:+ hemisphere) in
  let* affine := sample_get "affine" in
  let* gray_matter_mask := of_sum (nib_to_sitk gray_matter affine) in
  let* resectable := sample_get ("resectable_" +:+ hemisphere) in
  let* affine := sample_get "affine" in
  let* resectable_hemisphere_mask :=
    of_sum (nib_to_sitk resectable affine) in
  let* noise := sample_get "noise" in
  let* affine := sample_get "affine" in
  let* noise_image := of_sum (nib_to_sitk noise affine) in
  run when (verbose self) (print "[Prepare resection images]") then
  let* volume := dict_get resection_params "volume" in
  let* sigmas := dict_get resection_params "sigmas" in
  let* radii_ratio := dict_get resection_params "radii_ratio" in
  let* angles := dict_get resection_params "angles" in
  let* resected :=
    lift_rng (_resect brain gray_matter_mask resectable_hemisphere_mask
                noise_image volume sigmas radii_ratio angles
                (verbose self)) in
  let '(resected_brain, resection_mask, resection_center) := resected in
  let resection_params :=
    <["resection_center" := resection_center]> resection_params in
  let* resected_brain_array := of_sum (sitk_to_array resected_brain) in
  let* resected_mask_array := of_sum (sitk_to_array resection_mask) in
  let image_resected := add_channels_axis resected_brain_array in
  let* resection_label :=
    of_sum (add_background_channel resected_mask_array) in
  run assert (ndim image_resected =? 4) then
  run assert (ndim resection_label =? 4) then
  run sample_set "random_resection" (VParams resection_params) then
  run sample_set "image" (VArray image_resected) then
  run sample_set "label" (VArray resection_label) then
  run when (delete_keys self)
        (run sample_del "gray_matter_left" then
         run sample_del "gray_matter_right" then
         run sample_del "resectable_left" then
         run sample_del "resectable_right" then
         sample_del "noise") then
  run when (verbose self) (print "RandomResection") then
  λ w, (inr (w_sample w), w).

End Transform.

(** Modelled from the spec: [_resect] is defined in module [.resector],
    which is not among the source files. The spec's error taxonomy has a
    target volume [<= 0] as an invalid parameter, guarded against and
    failed on rather than carved as an empty cavity. [compose] stands for
    the compositor proper (blob, blending, threshold and the 3-tuple it
    returns), which runs only on a volume that passed the guard. *)
Definition guarded_resect {Image : Type}
    (compose : Image → Image → Image → Image →
               pvalue → pvalue → pvalue → pvalue → bool →
               M rng (Image * Image * pvalue))
    (brain gray_matter_mask resectable_mask noise_image : Image)
    (volume sigmas radii_ratio angles : pvalue) (verbose0 : bool)
    : M rng (Image * Image * pvalue) :=
  match volume with
  | PNum v =>
      if Qle_bool v 0
      then raise (ValueError "the target volume must be positive")
      else compose brain gray_matter_mask resectable_mask noise_image
             volume sigmas radii_ratio angles verbose0
  | _ =>
      compose brain gray_matter_mask resectable_mask noise_image
        volume sigmas radii_ratio angles verbose0
  end.

(** ** Vocabulary of the statements *)

(** The [k]-th draw from the current position, and the generator after
    [k] draws. *)
Definition draw (g : rng) (k : nat) : Q := rng_draws g (k + rng_pos g).

Definition skip (k : nat) (g : rng) : rng :=
  {| rng_draws := rng_draws g; rng_pos := k + rng_pos g |}.


Definition binary (v : Q) : Prop := (v == 0)%Q ∨ (v == 1)%Q.

(** What [get_params] can sample a volume from: a non-empty catalog, or no
    catalog and a range that [uniform_] accepts. *)
Definition samplable (vs : option (list Q)) (vr : option (Q * Q)) : Prop :=
  match vs with
  | Some l => l ≠ []
  | None => ∃ lo hi, vr = Some (lo, hi) ∧ range_ok lo hi = true
  end.

(** The three ranges of a configuration are ranges [uniform_] accepts. *)
Definition ranges_ok (sr rr ar : Q * Q) : bool :=
  range_ok (fst sr) (snd sr) && range_ok (fst rr) (snd rr)
  && range_ok (fst ar) (snd ar).

(** [x] lies between the binary32 roundings of the bounds of [r]. *)
Definition in_range32 (r : Q * Q) (x : Q) : Prop :=
  (round32 (fst r) <= x)%Q ∧ (x <= round32 (snd r))%Q.

(** The volume [get_params] samples from the second draw, when it can. *)
Definition volume_at (vs : option (list Q)) (vr : option (Q * Q)) (g : rng)
    : option Q :=
  match vs with
  | Some l => l !! index_of (length l) (draw g 1)
  | None =>
      match vr with
      | Some (lo, hi) =>
          if range_ok lo hi then Some (scale lo hi (draw g 1)) else None
      | None => None
      end
  end.

(** The hemisphere the first draw decides. *)
Definition hemisphere_at (g : rng) : Hemisphere :=
  if Qle_bool (1 # 2) (draw g 0) then LEFT else RIGHT.

Definition scaled (r : Q * Q) (g : rng) (k : nat) : Q :=
  scale (fst r) (snd r) (draw g k).

(** The dictionary of a run that starts at [g] and samples [volume]. *)
Definition params_at (g : rng) (volume : Q) (sr rr ar : Q * Q)
    : gmap string pvalue :=
  <["angles" := PList [scaled ar g 6; scaled ar g 7; scaled ar g 8]]>
    (<["radii_ratio" := PNum (scaled rr g 5)]>
      (<["sigmas" := PList [scaled sr g 2; scaled sr g 3; scaled sr g 4]]>
        (<["volume" := PNum volume]>
          (<["hemisphere" := PStr (Hemisphere_value (hemisphere_at g))]>
             ∅)))).

Definition param_keys : gset string :=
  {[ "hemisphere"; "volume"; "sigmas"; "radii_ratio"; "angles" ]}.

Definition consumed_keys : list string :=
  [ "gray_matter_left"; "gray_matter_right"; "resectable_left";
    "resectable_right"; "noise" ].

Definition written_keys : list string :=
  [ "random_resection"; "image"; "label" ].

(** A computation that leaves the sample record as it found it, whether it
    returns or raises. *)
Definition keeps_sample {A} (c : M world A) : Prop :=
  ∀ w r w1, c w = (r, w1) → w_sample w1 = w_sample w.

(** The sample after the three writes of a successful call. *)
Definition updated_sample (sample : gmap string value)
    (params : gmap string pvalue) (image label : ndarray)
    : gmap string value :=
  <["label" := VArray label]>
    (<["image" := VArray image]>
      (<["random_resection" := VParams params]> sample)).

Definition without_consumed (sample : gmap string value)
    : gmap string value :=
  delete "noise"
    (delete "resectable_right"
      (delete "resectable_left"
        (delete "gray_matter_right"
          (delete "gray_matter_left" sample)))).

(** [a[i, j, k]] of a three-axis array, row-major. *)
Definition at3 (a : ndarray) (i j k : nat) : Q :=
  match shape a with
  | [n0; n1; n2] => nth (i * (n1 * n2) + j * n2 + k) (data a) 0%Q
  | _ => 0%Q
  end.

(** The world with another generator state. *)
Definition with_rng (g : rng) (w : world) : world :=
  {| w_rng := g; w_sample := w_sample w; w_stdout := w_stdout w |}.

(** The same configuration with another [verbose] flag. *)
Definition set_verbose (b : bool) (self : RandomResection)
    : RandomResection :=
  {| volumes := volumes self; volumes_range := volumes_range self;
     sigmas_range := sigmas_range self;
     radii_ratio_range := radii_ratio_range self;
     angles_range := angles_range self; delete_keys := delete_keys self;
     verbose := b |}.

(** Two worlds that differ at most in what has been printed, and two
    computations that cannot be told apart on such worlds. *)
Definition same_but_stdout (w1 w2 : world) : Prop :=
  w_rng w1 = w_rng w2 ∧ w_sample w1 = w_sample w2.

Definition sim {A} (c1 c2 : M world A) : Prop :=
  ∀ w1 w2, same_but_stdout w1 w2 →
    fst (c1 w1) = fst (c2 w2) ∧ same_but_stdout (snd (c1 w1)) (snd (c2 w2)).

(** ** Stand-ins for the collaborators, for the concrete examples *)

Module Fixture.

(** An image is its voxel array. *)
Definition image : Type := ndarray.

Definition get_array (i : image) : ndarray := i.

Definition to_sitk (v affine : value) : exn + image :=
  match v with
  | VArray a => inr a
  | _ => inl TypeError
  end.

(** Returns the brain and the resectable mask as they are, centre at the
    origin, and draws nothing. *)
Definition resect (brain gray_matter resectable noise : image)
    (volume sigmas radii_ratio angles : pvalue) (verbose0 : bool)
    : M rng (image * image * pvalue) :=
  ret (brain, resectable, PList [0; 0; 0]%Q).


(** A generator that cycles through 0/8, 1/8, ..., 7/8. *)
Definition cycle8 (start : nat) : rng :=
  {| rng_draws := λ i, (Z.of_nat (i mod 8) # 8)%Q; rng_pos := start |}.

Definition cube (v : Q) : ndarray := {| shape := [1; 1; 1]; data := [v] |}.

Definition brain4 : ndarray := {| shape := [1; 1; 1; 1]; data := [100%Q] |}.

Definition identity_affine : value :=
  VAffine [[1; 0; 0; 0]; [0; 1; 0; 0]; [0; 0; 1; 0]; [0; 0; 0; 1]]%Q.

(** A sample with every key the transform reads, and one it does not. *)
Definition full_sample : gmap string value :=
  <["image" := VArray brain4]>
    (<["affine" := identity_affine]>
      (<["gray_matter_left" := VArray (cube 1)]>
        (<["gray_matter_right" := VArray (cube 1)]>
          (<["resectable_left" := VArray (cube 1)]>
            (<["resectable_right" := VArray (cube 0)]>
              (<["noise" := VArray (cube 0)]>
                (<["subject_id" := VOther "sub-01"]> ∅))))))).

(** The same sample without the masks of the right hemisphere. *)
Definition left_only_sample : gmap string value :=
  delete "gray_matter_right" (delete "resectable_right" full_sample).

Definition world_of (start : nat) (sample : gmap string value) : world :=
  {| w_rng := cycle8 start; w_sample := sample; w_stdout := [] |}.

Definition config (delete_keys0 : bool) : RandomResection :=
  {| volumes := None;
     volumes_range := Some (50, 5000)%Q;
     sigmas_range := default_sigmas_range;
     radii_ratio_range := default_radii_ratio_range;
     angles_range := default_angles_range;
     delete_keys := delete_keys0;
     verbose := false |}.

(** A catalog whose only volume is negative. *)
Definition negative_catalog_config : RandomResection :=
  {| volumes := Some [(-1)%Q];
     volumes_range := None;
     sigmas_range := default_sigmas_range;
     radii_ratio_range := default_radii_ratio_range;
     angles_range := default_angles_range;
     delete_keys := true;
     verbose := false |}.

Definition call (self : RandomResection) : M world (gmap string value) :=
  __call__ image get_array to_sitk resect self.

End Fixture.

(** * Properties *)

(** ** Construction *)

(** C1. Construction succeeds exactly when one of [volumes] and
    [volumes_range] is given, and then returns the configured object; with
    both or neither it raises [ValueError] and returns no object. In every
    case the generator is left where it was: no random number is drawn. *)
Theorem init_exactly_one_source
    (vr : option (Q * Q)) (vs : option (list Q)) (sr rr ar : Q * Q)
    (dk vb : bool) (g : rng) :
  match vs, vr with
  | Some _, None | None, Some _ =>
      __init__ vr vs sr rr ar dk vb g =
        (inr {| volumes := vs; volumes_range := vr; sigmas_range := sr;
                radii_ratio_range := rr; angles_range := ar;
                delete_keys := dk; verbose := vb |}, g)
  | Some _, Some _ | None, None =>
      ∃ msg, __init__ vr vs sr rr ar dk vb g = (inl (ValueError msg), g)
  end.
Proof.
  destruct vs as [l|], vr as [[lo hi]|]; cbn; eauto.
Qed.

(** * binary32 rounding *)

(** ** Powers of two *)

Lemma two_neq_0 : ¬ (2 == 0)%Q.
Proof. discriminate. Qed.

Lemma pow2_pos z : (0 < pow2 z)%Q.
Proof. apply Qpower_0_lt. reflexivity. Qed.

Lemma pow2_add a b : (pow2 (a + b) == pow2 a * pow2 b)%Q.
Proof. apply Qpower_plus, two_neq_0. Qed.

Lemma pow2_le a b : (a <= b)%Z → (pow2 a <= pow2 b)%Q.
Proof. intros H. apply Qpower_le_compat_l; [done|discriminate]. Qed.

Lemma pow2_lt a b : (a < b)%Z → (pow2 a < pow2 b)%Q.
Proof. intros H. apply Qpower_lt_compat_l; [done|reflexivity]. Qed.

Lemma pow2_lt_inv a b : (pow2 a < pow2 b)%Q → (a < b)%Z.
Proof. intros H. eapply Qpower_lt_compat_l_inv; [exact H|reflexivity]. Qed.

Lemma pow2_Z n : (0 <= n)%Z → (pow2 n == inject_Z (2 ^ n))%Q.
Proof. intros H. unfold pow2. by rewrite Zpower_Qpower. Qed.

Lemma pow2_succ a : (pow2 (a + 1) == 2 * pow2 a)%Q.
Proof. rewrite pow2_add. change (pow2 1) with 2%Q. ring. Qed.

Lemma pow2_sub a b : (pow2 (a - b) == pow2 a / pow2 b)%Q.
Proof.
  assert (H := pow2_add (a - b) b). replace (a - b + b)%Z with a in H by lia.
  pose proof (pow2_pos b). rewrite H. field. lra.
Qed.

(** ** The binary exponent of a positive rational *)

Lemma ilog2_spec x :
  (0 < x)%Q → (pow2 (ilog2 x) <= x)%Q ∧ (x < pow2 (ilog2 x + 1))%Q.
Proof.
  intros Hx. destruct x as [a b]. unfold ilog2. cbn [Qnum Qden].
  assert (Ha : (0 < a)%Z) by (unfold Qlt in Hx; cbn in Hx; lia).
  set (la := Z.log2 a). set (lb := Z.log2 (Z.pos b)).
  destruct (Z.log2_spec a Ha) as [Ha1 Ha2]. fold la in Ha1, Ha2.
  destruct (Z.log2_spec (Z.pos b) ltac:(lia)) as [Hb1 Hb2].
  fold lb in Hb1, Hb2.
  assert (Hla : (0 <= la)%Z) by apply Z.log2_nonneg.
  assert (Hlb : (0 <= lb)%Z) by apply Z.log2_nonneg.
  set (x := (a # b)%Q) in *.
  assert (Hxb : (x * inject_Z (Z.pos b) == inject_Z a)%Q).
  { unfold x. rewrite (Qmake_Qdiv a b). field. discriminate. }
  assert (HA1 : (pow2 la <= inject_Z a)%Q).
  { rewrite pow2_Z by done. by rewrite <- Zle_Qle. }
  assert (HA2 : (inject_Z a < pow2 (la + 1))%Q).
  { rewrite pow2_Z by lia. by rewrite <- Zlt_Qlt. }
  assert (HB1 : (pow2 lb <= inject_Z (Z.pos b))%Q).
  { rewrite pow2_Z by done. by rewrite <- Zle_Qle. }
  assert (HB2 : (inject_Z (Z.pos b) < pow2 (lb + 1))%Q).
  { rewrite pow2_Z by lia. by rewrite <- Zlt_Qlt. }
  pose proof (pow2_pos lb) as Plb. pose proof (pow2_pos la) as Pla.
  pose proof (pow2_pos (la - lb)) as Pe.
  assert (E1 : (pow2 la == pow2 (la - lb) * pow2 lb)%Q).
  { rewrite <- pow2_add. by replace (la - lb + lb)%Z with la by lia. }
  assert (Hup : (x < pow2 (la - lb + 1))%Q).
  { rewrite pow2_succ. rewrite pow2_succ in HA2.
    set (B := inject_Z (Z.pos b)) in *. set (A := inject_Z a) in *.
    set (P := pow2 lb) in *. set (E := pow2 (la - lb)) in *.
    set (L := pow2 la) in *. nra. }
  assert (Hlow : (pow2 (la - lb - 1) < x)%Q).
  { assert (E2 : (pow2 (la - lb) == 2 * pow2 (la - lb - 1))%Q).
    { rewrite <- pow2_succ. by replace (la - lb - 1 + 1)%Z with (la - lb)%Z by lia. }
    rewrite pow2_succ in HB2. pose proof (pow2_pos (la - lb - 1)).
    set (B := inject_Z (Z.pos b)) in *. set (A := inject_Z a) in *.
    set (P := pow2 lb) in *. set (E := pow2 (la - lb)) in *.
    set (L := pow2 la) in *. set (E' := pow2 (la - lb - 1)) in *. nra. }
  destruct (Qle_bool (pow2 (la - lb)) x) eqn:Ht.
  - apply Qle_bool_iff in Ht. done.
  - split; [by apply Qlt_le_weak|].
    replace (la - lb - 1 + 1)%Z with (la - lb)%Z by lia.
    apply Qnot_le_lt. intros Hle. apply Qle_bool_iff in Hle. congruence.
Qed.

Lemma ilog2_unique x e :
  (0 < x)%Q → (pow2 e <= x)%Q → (x < pow2 (e + 1))%Q → ilog2 x = e.
Proof.
  intros Hx H1 H2. destruct (ilog2_spec x Hx) as [H3 H4].
  assert (e < ilog2 x + 1)%Z by (apply pow2_lt_inv; lra).
  assert (ilog2 x < e + 1)%Z by (apply pow2_lt_inv; lra).
  lia.
Qed.

Lemma ilog2_comp x y : (0 < x)%Q → (x == y)%Q → ilog2 x = ilog2 y.
Proof.
  intros Hx Hxy. symmetry. destruct (ilog2_spec x Hx).
  apply ilog2_unique; lra.
Qed.

Lemma ilog2_mono x y : (0 < x)%Q → (x <= y)%Q → (ilog2 x <= ilog2 y)%Z.
Proof.
  intros Hx Hxy. destruct (ilog2_spec x Hx), (ilog2_spec y ltac:(lra)).
  assert (ilog2 x < ilog2 y + 1)%Z by (apply pow2_lt_inv; lra). lia.
Qed.

(** ** Rounding to the nearest integer, ties to even *)

Lemma rne_cases x :
  (rne x = Qfloor x ∧ (x - inject_Z (Qfloor x) <= 1 # 2)%Q) ∨
  (rne x = (Qfloor x + 1)%Z ∧ (1 # 2 <= x - inject_Z (Qfloor x))%Q).
Proof.
  unfold rne.
  destruct (Qcompare_spec (x - inject_Z (Qfloor x)) (1 # 2)) as [H|H|H].
  - destruct (Z.even (Qfloor x)); [left|right]; (split; [done|lra]).
  - left. split; [done|lra].
  - right. split; [done|lra].
Qed.

Lemma floor_bounds x :
  (inject_Z (Qfloor x) <= x)%Q ∧ (x < inject_Z (Qfloor x) + 1)%Q.
Proof.
  split; [apply Qfloor_le|]. pose proof (Qlt_floor x) as H.
  by rewrite inject_Z_plus in H.
Qed.

Lemma rne_error x :
  (x - (1 # 2) <= inject_Z (rne x))%Q ∧ (inject_Z (rne x) <= x + (1 # 2))%Q.
Proof.
  destruct (floor_bounds x) as [Hf1 Hf2], (rne_cases x) as [[-> H]|[-> H]];
    rewrite ?inject_Z_plus; change (inject_Z 1) with 1%Q; split; lra.
Qed.

Lemma rne_comp x y : (x == y)%Q → rne x = rne y.
Proof.
  intros H. unfold rne. rewrite (Qfloor_comp _ _ H).
  assert (E : (x - inject_Z (Qfloor y) ?= 1 # 2)%Q
              = (y - inject_Z (Qfloor y) ?= 1 # 2)%Q).
  { apply Qcompare_comp; [by rewrite H|reflexivity]. }
  by rewrite E.
Qed.

Lemma rne_Z n : rne (inject_Z n) = n.
Proof.
  unfold rne. rewrite Qfloor_Z.
  destruct (Qcompare_spec (inject_Z n - inject_Z n) (1 # 2)) as [H|H|H];
    [lra|done|lra].
Qed.

Lemma rne_of_Z x n : (x == inject_Z n)%Q → rne x = n.
Proof. intros H. rewrite (rne_comp _ _ H). apply rne_Z. Qed.

Lemma rne_mono x y : (x <= y)%Q → (rne x <= rne y)%Z.
Proof.
  intros Hxy. pose proof (Qfloor_resp_le _ _ Hxy) as Hf.
  destruct (floor_bounds x) as [Hx1 Hx2], (floor_bounds y) as [Hy1 Hy2].
  destruct (Z.eq_dec (Qfloor x) (Qfloor y)) as [Heq|Hne].
  - unfold rne. rewrite Heq.
    destruct (Qcompare_spec (x - inject_Z (Qfloor y)) (1 # 2)) as [Hx|Hx|Hx],
             (Qcompare_spec (y - inject_Z (Qfloor y)) (1 # 2)) as [Hy|Hy|Hy];
      try lia; try (destruct (Z.even (Qfloor y)); lia);
      exfalso; rewrite ?Heq in *; lra.
  - destruct (rne_cases x) as [[-> _]|[-> _]], (rne_cases y) as [[-> _]|[-> _]];
      lia.
Qed.

Lemma rne_le_Z x n : (x <= inject_Z n)%Q → (rne x <= n)%Z.
Proof. intros H. rewrite <- (rne_Z n). by apply rne_mono. Qed.

Lemma rne_ge_Z x n : (inject_Z n <= x)%Q → (n <= rne x)%Z.
Proof. intros H. rewrite <- (rne_Z n). by apply rne_mono. Qed.

(** ** Rounding a positive rational to binary32 *)

Lemma quantum_exp_comp x y :
  (0 < x)%Q → (x == y)%Q → quantum_exp x = quantum_exp y.
Proof. intros Hx H. unfold quantum_exp. by rewrite (ilog2_comp x y). Qed.

Lemma round_pos_comp x y :
  (0 < x)%Q → (x == y)%Q → (round_pos x == round_pos y)%Q.
Proof.
  intros Hx H. unfold round_pos. rewrite (quantum_exp_comp x y Hx H).
  rewrite (rne_comp (x / pow2 (quantum_exp y)) (y / pow2 (quantum_exp y)));
    [reflexivity|by rewrite H].
Qed.

Lemma quantum_exp_ge x : (-149 <= quantum_exp x)%Z.
Proof. unfold quantum_exp. lia. Qed.

Lemma round_pos_error x :
  (0 < x)%Q →
  (x - pow2 (quantum_exp x) / 2 <= round_pos x)%Q ∧
  (round_pos x <= x + pow2 (quantum_exp x) / 2)%Q.
Proof.
  intros Hx. unfold round_pos. set (q := pow2 (quantum_exp x)).
  assert (Hq : (0 < q)%Q) by apply pow2_pos.
  destruct (rne_error (x / q)) as [H1 H2].
  set (r := inject_Z (rne (x / q))) in *.
  assert (E : (x / q * q == x)%Q) by (field; lra).
  set (t := (x / q)%Q) in *.
  assert (P1 : (0 <= (r - t + (1 # 2)) * q)%Q)
    by (apply Qmult_le_0_compat; lra).
  assert (P2 : (0 <= (t + (1 # 2) - r) * q)%Q)
    by (apply Qmult_le_0_compat; lra).
  clearbody r t q. split.
  - assert (Ea : (r * q == x - q / 2 + (r - t + (1 # 2)) * q)%Q)
      by (rewrite <- E; field).
    rewrite Ea. lra.
  - assert (Ea : (r * q == x + q / 2 - (t + (1 # 2) - r) * q)%Q)
      by (rewrite <- E; field).
    rewrite Ea. lra.
Qed.

Lemma round_pos_ge_multiple x n :
  (0 < x)%Q → (inject_Z n * pow2 (quantum_exp x) <= x)%Q →
  (inject_Z n * pow2 (quantum_exp x) <= round_pos x)%Q.
Proof.
  intros Hx H. unfold round_pos. set (q := pow2 (quantum_exp x)) in *.
  assert (Hq : (0 < q)%Q) by apply pow2_pos.
  assert (Hn : (n <= rne (x / q))%Z).
  { apply rne_ge_Z. apply Qle_shift_div_l; done. }
  rewrite Zle_Qle in Hn. nra.
Qed.

Lemma round_pos_le_multiple x n :
  (0 < x)%Q → (x <= inject_Z n * pow2 (quantum_exp x))%Q →
  (round_pos x <= inject_Z n * pow2 (quantum_exp x))%Q.
Proof.
  intros Hx H. unfold round_pos. set (q := pow2 (quantum_exp x)) in *.
  assert (Hq : (0 < q)%Q) by apply pow2_pos.
  assert (Hn : (rne (x / q) <= n)%Z).
  { apply rne_le_Z. apply Qle_shift_div_r; done. }
  rewrite Zle_Qle in Hn. nra.
Qed.

Lemma round_pos_nonneg x : (0 < x)%Q → (0 <= round_pos x)%Q.
Proof.
  intros Hx. pose proof (round_pos_ge_multiple x 0 Hx) as H.
  rewrite Qmult_0_l in H. apply H. lra.
Qed.

Lemma pow2_multiple a b :
  (b <= a)%Z → (pow2 a == inject_Z (2 ^ (a - b)) * pow2 b)%Q.
Proof.
  intros H. rewrite <- pow2_Z by lia. rewrite <- pow2_add.
  by replace (a - b + b)%Z with a by lia.
Qed.

Lemma round_pos_le_pow2 x e :
  (0 < x)%Q → (x <= pow2 e)%Q → (-149 <= e)%Z → (round_pos x <= pow2 e)%Q.
Proof.
  intros Hx H He.
  assert (Hk : (quantum_exp x <= e)%Z).
  { destruct (ilog2_spec x Hx) as [H1 _].
    pose proof (pow2_lt e (e + 1) ltac:(lia)) as H2.
    assert (ilog2 x < e + 1)%Z by (apply pow2_lt_inv; lra).
    unfold quantum_exp. lia. }
  rewrite (pow2_multiple e (quantum_exp x) Hk) in H |- *.
  by apply round_pos_le_multiple.
Qed.

Lemma round_pos_ge_pow2 x :
  (0 < x)%Q → (-126 <= ilog2 x)%Z → (pow2 (ilog2 x) <= round_pos x)%Q.
Proof.
  intros Hx He. destruct (ilog2_spec x Hx) as [H1 _].
  assert (Hk : (quantum_exp x <= ilog2 x)%Z) by (unfold quantum_exp; lia).
  rewrite (pow2_multiple (ilog2 x) (quantum_exp x) Hk) in H1 |- *.
  by apply round_pos_ge_multiple.
Qed.

Lemma round_pos_mono x y :
  (0 < x)%Q → (x <= y)%Q → (round_pos x <= round_pos y)%Q.
Proof.
  intros Hx Hxy. assert (Hy : (0 < y)%Q) by lra.
  pose proof (ilog2_mono x y Hx Hxy) as Hl.
  destruct (Z.eq_dec (quantum_exp x) (quantum_exp y)) as [Heq|Hne].
  - unfold round_pos. rewrite Heq. set (q := pow2 (quantum_exp y)).
    assert (Hq : (0 < q)%Q) by apply pow2_pos.
    assert (Hr : (rne (x / q) <= rne (y / q))%Z).
    { apply rne_mono. apply Qle_shift_div_l; [done|].
      assert (E : (x / q * q == x)%Q) by (field; lra). lra. }
    rewrite Zle_Qle in Hr. nra.
  - assert (Hy2 : (-126 < ilog2 y)%Z ∧ (Z.max (ilog2 x) (-126) < ilog2 y)%Z)
      by (unfold quantum_exp in Hne; lia).
    destruct Hy2 as [Hy2 Hy3].
    apply (Qle_trans _ (pow2 (ilog2 y)));
      [|apply round_pos_ge_pow2; [done|lia]].
    apply (Qle_trans _ (pow2 (Z.max (ilog2 x) (-126) + 1)));
      [|apply pow2_le; lia].
    apply round_pos_le_pow2; [done| |lia].
    destruct (ilog2_spec x Hx) as [_ H2].
    assert (pow2 (ilog2 x + 1) <= pow2 (Z.max (ilog2 x) (-126) + 1))%Q
      by (apply pow2_le; lia).
    lra.
Qed.

Lemma pow2_shift n k :
  (0 <= n)%Z → (pow2 (k + n) == inject_Z (2 ^ n) * pow2 k)%Q.
Proof. intros H. rewrite pow2_add, (pow2_Z n) by done. ring. Qed.

(** ** binary32 numbers *)

Lemma inject_Z_pos r q : (0 < q)%Q → (0 < inject_Z r * q)%Q → (0 < r)%Z.
Proof.
  intros Hq H. destruct (Z.lt_ge_cases 0 r) as [|Hr]; [done|].
  exfalso. rewrite Zle_Qle in Hr. change (inject_Z 0) with 0%Q in Hr. nra.
Qed.

Lemma round_pos_fixed f r c :
  (0 < f)%Q → (f == inject_Z r * pow2 c)%Q → (r < 2 ^ 24)%Z →
  (-149 <= c)%Z → (round_pos f == f)%Q.
Proof.
  intros Hf E Hr Hc. pose proof (pow2_pos c) as Pc.
  assert (Hr0 : (0 < r)%Z) by (apply (inject_Z_pos r (pow2 c)); [done|lra]).
  assert (Hlt : (f < pow2 (c + 24))%Q).
  { rewrite pow2_add, (pow2_Z 24) by lia. rewrite Zlt_Qlt in Hr.
    rewrite E, (Qmult_comm (pow2 c)). apply Qmult_lt_r; done. }
  assert (Hk : (quantum_exp f <= c)%Z).
  { destruct (ilog2_spec f Hf) as [H1 _].
    assert (ilog2 f < c + 24)%Z by (apply pow2_lt_inv; lra).
    unfold quantum_exp. lia. }
  unfold round_pos. set (k := quantum_exp f) in *.
  pose proof (pow2_pos k) as Pk.
  assert (E2 : (f / pow2 k == inject_Z (r * 2 ^ (c - k)))%Q).
  { rewrite E, (pow2_multiple c k Hk), inject_Z_mult. field. lra. }
  rewrite (rne_of_Z _ _ E2). rewrite <- E2. field. lra.
Qed.

Lemma round_pos_structure x :
  (0 < x)%Q →
  ∃ r, (0 <= r <= 2 ^ 24)%Z ∧
       (round_pos x == inject_Z r * pow2 (quantum_exp x))%Q.
Proof.
  intros Hx. exists (rne (x / pow2 (quantum_exp x))).
  split; [|reflexivity].
  set (q := pow2 (quantum_exp x)). assert (Hq : (0 < q)%Q) by apply pow2_pos.
  split.
  - apply rne_ge_Z. change (inject_Z 0) with 0%Q.
    apply Qle_shift_div_l; [done|lra].
  - apply rne_le_Z. apply Qle_shift_div_r; [done|].
    destruct (ilog2_spec x Hx) as [_ H2].
    assert (H3 : (pow2 (ilog2 x + 1)
                  <= pow2 (quantum_exp x + 24))%Q)
      by (apply pow2_le; unfold quantum_exp; lia).
    rewrite (pow2_shift 24) in H3 by lia. fold q in H3. lra.
Qed.

Lemma round_pos_float x : (0 < x)%Q → is_float32 (round_pos x).
Proof.
  intros Hx. destruct (round_pos_structure x Hx) as (r & [Hr0 Hr1] & E).
  pose proof (quantum_exp_ge x) as Hk.
  destruct (Z.eq_dec r (2 ^ 24)%Z) as [->|Hne].
  - exists (2 ^ 23)%Z, (quantum_exp x + 1)%Z.
    split; [lia|]. split; [lia|]. rewrite E, pow2_succ.
    change (inject_Z (2 ^ 24)) with (2 * inject_Z (2 ^ 23))%Q. ring.
  - exists r, (quantum_exp x). split; [lia|]. done.
Qed.

(** ** Rounding any rational *)

Lemma round32_pos x : (0 < x)%Q → round32 x = round_pos x.
Proof.
  intros H. unfold round32. by destruct (Qcompare_spec x 0); try lra.
Qed.

Lemma round32_neg x : (x < 0)%Q → round32 x = (- round_pos (- x))%Q.
Proof.
  intros H. unfold round32. by destruct (Qcompare_spec x 0); try lra.
Qed.

Lemma round32_zero x : (x == 0)%Q → round32 x = 0%Q.
Proof.
  intros H. unfold round32. by destruct (Qcompare_spec x 0); try lra.
Qed.

Lemma round32_comp x y : (x == y)%Q → (round32 x == round32 y)%Q.
Proof.
  intros H. destruct (Qcompare_spec x 0) as [H0|H0|H0].
  - by rewrite (round32_zero x), (round32_zero y) by lra.
  - rewrite (round32_neg x), (round32_neg y) by lra.
    by rewrite (round_pos_comp (- x) (- y)) by lra.
  - rewrite (round32_pos x), (round32_pos y) by lra.
    by apply round_pos_comp.
Qed.

#[export] Instance round32_proper : Proper (Qeq ==> Qeq) round32.
Proof. intros x y H. by apply round32_comp. Qed.

Lemma round32_nonneg x : (0 <= x)%Q → (0 <= round32 x)%Q.
Proof.
  intros H. destruct (Qcompare_spec x 0) as [H0|H0|H0]; [|lra|].
  - rewrite (round32_zero x) by done. lra.
  - rewrite round32_pos by done. by apply round_pos_nonneg.
Qed.

Lemma round32_nonpos x : (x <= 0)%Q → (round32 x <= 0)%Q.
Proof.
  intros H. destruct (Qcompare_spec x 0) as [H0|H0|H0]; [| |lra].
  - rewrite (round32_zero x) by done. lra.
  - rewrite round32_neg by done.
    pose proof (round_pos_nonneg (- x) ltac:(lra)). lra.
Qed.

Lemma round32_mono x y : (x <= y)%Q → (round32 x <= round32 y)%Q.
Proof.
  intros H. destruct (Qlt_le_dec 0 x) as [Hx|Hx].
  - rewrite (round32_pos x), (round32_pos y) by lra. by apply round_pos_mono.
  - destruct (Qlt_le_dec y 0) as [Hy|Hy].
    + rewrite (round32_neg x), (round32_neg y) by lra.
      pose proof (round_pos_mono (- y) (- x) ltac:(lra) ltac:(lra)). lra.
    + pose proof (round32_nonpos x Hx). pose proof (round32_nonneg y Hy). lra.
Qed.

Lemma round32_float x : is_float32 (round32 x).
Proof.
  destruct (Qcompare_spec x 0) as [H0|H0|H0].
  - rewrite round32_zero by done. exists 0%Z, 0%Z.
    split; [done|]. split; [done|]. reflexivity.
  - rewrite round32_neg by done.
    destruct (round_pos_float (- x) ltac:(lra)) as (r & c & Hr & Hc & E).
    exists (- r)%Z, c. split; [lia|]. split; [done|].
    rewrite E, inject_Z_opp. ring.
  - rewrite round32_pos by done. by apply round_pos_float.
Qed.

Lemma round32_fixed f : is_float32 f → (round32 f == f)%Q.
Proof.
  intros (r & c & Hr & Hc & E). pose proof (pow2_pos c) as Pc.
  destruct (Qcompare_spec f 0) as [H0|H0|H0].
  - rewrite round32_zero by done. lra.
  - rewrite round32_neg by done.
    rewrite (round_pos_fixed (- f) (- r) c); [ring|lra| |lia|done].
    rewrite E, inject_Z_opp. ring.
  - rewrite round32_pos by done.
    apply (round_pos_fixed f r c); [done|done|lia|done].
Qed.

Lemma round32_idem x : (round32 (round32 x) == round32 x)%Q.
Proof. apply round32_fixed, round32_float. Qed.

(** ** Error of one rounding *)

Lemma round_pos_normal_error x :
  (0 < x)%Q → (-126 <= ilog2 x)%Z →
  (x - x * eps32 <= round_pos x)%Q ∧ (round_pos x <= x + x * eps32)%Q.
Proof.
  intros Hx He. destruct (round_pos_error x Hx) as [H1 H2].
  destruct (ilog2_spec x Hx) as [H3 _].
  assert (E : (pow2 (quantum_exp x) / 2 == pow2 (ilog2 x) * eps32)%Q).
  { unfold quantum_exp, eps32. rewrite Z.max_l by lia.
    rewrite <- pow2_add.
    replace (ilog2 x + -24)%Z with (ilog2 x - 23 - 1)%Z by lia.
    rewrite (pow2_sub _ 1). reflexivity. }
  rewrite E in H1, H2. assert (He32 : (0 < eps32)%Q) by apply pow2_pos.
  assert (P : (pow2 (ilog2 x) * eps32 <= x * eps32)%Q)
    by (apply Qmult_le_compat_r; lra).
  split; lra.
Qed.


(** ** binary32 numbers lie on the grid of 2^-149 *)

Lemma float32_grid f :
  is_float32 f → ∃ j, (f == inject_Z j * pow2 (-149))%Q.
Proof.
  intros (r & c & _ & Hc & E). exists (r * 2 ^ (c + 149))%Z.
  rewrite E, inject_Z_mult.
  replace c with (-149 + (c + 149))%Z at 1 by lia.
  rewrite (pow2_shift (c + 149)) by lia. ring.
Qed.

Lemma small_grid_float f j :
  (f == inject_Z j * pow2 (-149))%Q → (0 <= f)%Q → (f <= pow2 (-126))%Q →
  is_float32 f.
Proof.
  intros E H0 H1. exists j, (-149)%Z. split; [|done].
  pose proof (pow2_pos (-149)) as P.
  assert (E2 : (pow2 (-126) == inject_Z (2 ^ 23) * pow2 (-149))%Q)
    by reflexivity.
  rewrite E, E2 in H1. rewrite E in H0.
  assert (Hj1 : (j <= 2 ^ 23)%Z).
  { destruct (Z.le_gt_cases j (2 ^ 23)) as [|Hgt]; [done|exfalso].
    rewrite Zlt_Qlt in Hgt. nra. }
  assert (Hj0 : (0 <= j)%Z).
  { destruct (Z.le_gt_cases 0 j) as [|Hgt]; [done|exfalso].
    rewrite Zlt_Qlt in Hgt. change (inject_Z 0) with 0%Q in Hgt. nra. }
  lia.
Qed.

(** ** One sample of [uniform_] in binary32 arithmetic *)

Lemma scaled_width_le (D u : Q) (j : Z) :
  (0 <= D)%Q → (D == inject_Z j * pow2 (-149))%Q →
  (0 <= u)%Q → (u <= 1 - eps32)%Q →
  (round32 (u * round32 D) <= D)%Q.
Proof.
  intros HD Hgrid Hu0 Hu1.
  assert (He32 : (0 < eps32)%Q) by apply pow2_pos.
  assert (Hd0 : (0 <= round32 D)%Q) by (by apply round32_nonneg).
  set (d := round32 D) in *. set (y := (u * d)%Q).
  assert (Hy0 : (0 <= y)%Q) by (apply Qmult_le_0_compat; lra).
  assert (Hyd : (y <= (1 - eps32) * d)%Q)
    by (unfold y; apply Qmult_le_compat_r; lra).
  assert (Hp0 : (0 <= round32 y)%Q) by (by apply round32_nonneg).
  destruct (Qlt_le_dec D (round32 y)) as [Hgt|]; [exfalso|done].
  assert (Hdp : (d <= round32 y)%Q).
  { rewrite <- (round32_idem y). apply round32_mono. lra. }
  assert (Hpd : (round32 y <= d)%Q).
  { apply (Qle_trans _ (round32 d)); [apply round32_mono; nra|].
    unfold d. rewrite round32_idem. apply Qle_refl. }
  assert (Hy : (0 < y)%Q).
  { destruct (Qlt_le_dec 0 y) as [|Hle]; [done|exfalso].
    rewrite (round32_zero y) in Hgt by lra. lra. }
  rewrite (round32_pos y Hy) in *.
  destruct (Z.le_gt_cases (-126) (ilog2 y)) as [He|He].
  - destruct (round_pos_normal_error y Hy He) as [_ H2].
    assert (0 < d)%Q by lra.
    assert (P : (y * eps32 <= (1 - eps32) * d * eps32)%Q)
      by (apply Qmult_le_compat_r; lra).
    assert (0 < d * eps32 * eps32)%Q
      by (repeat apply Qmult_lt_0_compat; lra).
    nra.
  - destruct (ilog2_spec y Hy) as [_ H2].
    assert (H3 : (pow2 (ilog2 y + 1) <= pow2 (-126))%Q)
      by (apply pow2_le; lia).
    assert (H4 : (round_pos y <= pow2 (-126))%Q)
      by (apply round_pos_le_pow2; [done|lra|lia]).
    assert (Hf : is_float32 D)
      by (apply (small_grid_float D j); [done|done|lra]).
    apply round32_fixed in Hf. fold d in Hf. lra.
Qed.

Lemma sample32_bounds (f t u : Q) :
  is_float32 f → is_float32 t → (f <= t)%Q →
  (0 <= u)%Q → (u <= 1 - eps32)%Q →
  (f <= sample32 f t u)%Q ∧ (sample32 f t u <= t)%Q.
Proof.
  intros Hf Ht Hft Hu0 Hu1. unfold sample32.
  destruct (float32_grid f Hf) as [jf Ef], (float32_grid t Ht) as [jt Et].
  assert (Hgrid : (t - f == inject_Z (jt - jf) * pow2 (-149))%Q).
  { rewrite Ef, Et. unfold Z.sub. rewrite inject_Z_plus, inject_Z_opp. ring. }
  pose proof (scaled_width_le (t - f) u (jt - jf) ltac:(lra) Hgrid Hu0 Hu1)
    as Hp.
  assert (Hp0 : (0 <= round32 (u * round32 (t - f)))%Q).
  { apply round32_nonneg, Qmult_le_0_compat; [done|].
    apply round32_nonneg. lra. }
  set (p := round32 (u * round32 (t - f))) in *. split.
  - apply (Qle_trans _ (round32 f)).
    + rewrite (round32_fixed f Hf). apply Qle_refl.
    + apply round32_mono. lra.
  - apply (Qle_trans _ (round32 t)).
    + apply round32_mono. lra.
    + rewrite (round32_fixed t Ht). apply Qle_refl.
Qed.

Lemma sample32_mono (f t u1 u2 : Q) :
  (f <= t)%Q → (u1 <= u2)%Q → (sample32 f t u1 <= sample32 f t u2)%Q.
Proof.
  intros Hft Hu. unfold sample32.
  assert (Hd : (0 <= round32 (t - f))%Q) by (apply round32_nonneg; lra).
  apply round32_mono. apply Qplus_le_l. apply round32_mono.
  by apply Qmult_le_compat_r.
Qed.

Lemma sample32_at_0 (f t u : Q) :
  is_float32 f → (u == 0)%Q → (sample32 f t u == f)%Q.
Proof.
  intros Hf Hu. unfold sample32.
  rewrite (round32_zero (u * _)) by (rewrite Hu; ring).
  rewrite Qplus_0_l. by apply round32_fixed.
Qed.




(** ** Arithmetic of the draws *)

Lemma index_of_bounds (n : nat) (u : Q) :
  (0 <= u)%Q →
  (inject_Z (Z.of_nat (index_of n u)) <= u * inject_Z (Z.of_nat n))%Q ∧
  (u * inject_Z (Z.of_nat n) < inject_Z (Z.of_nat (index_of n u)) + 1)%Q.
Proof.
  intros H0. unfold index_of.
  set (x := (u * inject_Z (Z.of_nat n))%Q).
  assert (Hx : (0 <= x)%Q).
  { unfold x. apply Qmult_le_0_compat; [done|].
    change 0%Q with (inject_Z 0). rewrite <- Zle_Qle. lia. }
  assert (Hf : (0 <= Qfloor x)%Z).
  { change 0%Z with (Qfloor 0). by apply Qfloor_resp_le. }
  rewrite Z2Nat.id by done. split.
  - apply Qfloor_le.
  - pose proof (Qlt_floor x) as Hlt. by rewrite inject_Z_plus in Hlt.
Qed.

Lemma index_of_lt (n : nat) (u : Q) :
  (0 <= u)%Q → (u < 1)%Q → 0 < n → index_of n u < n.
Proof.
  intros H0 H1 Hn. destruct (index_of_bounds n u H0) as [Hle _].
  assert (Hn' : (0 < inject_Z (Z.of_nat n))%Q).
  { change 0%Q with (inject_Z 0). rewrite <- Zlt_Qlt. lia. }
  assert (Hlt : (inject_Z (Z.of_nat (index_of n u))
                 < inject_Z (Z.of_nat n))%Q) by nra.
  rewrite <- Zlt_Qlt in Hlt. lia.
Qed.


(** ** What [get_params] computes *)

Lemma get_params_with_volume vs vr sr rr ar g v :
  volume_at vs vr g = Some v →
  get_params vs vr sr rr ar g =
    if range_ok (fst sr) (snd sr)
    then if range_ok (fst rr) (snd rr)
         then if range_ok (fst ar) (snd ar)
              then (inr (params_at g v sr rr ar), skip 9 g)
              else (inl RuntimeError, skip 6 g)
         else (inl RuntimeError, skip 5 g)
    else (inl RuntimeError, skip 2 g).
Proof.
  unfold volume_at. intros Hv.
  destruct vs as [[|x l]|]; [done| |destruct vr as [[lo hi]|]; [|done]].
  - cbn [length] in Hv.
    unfold get_params, flip_coin, torch_randint, torch_rand, bind, ret.
    cbn [length]. cbn beta iota.
    change (rng_draws (advance g) (rng_pos (advance g))) with (draw g 1).
    rewrite Hv. unfold uniform_.
    destruct (range_ok sr.1 sr.2), (range_ok rr.1 rr.2),
      (range_ok ar.1 ar.2); reflexivity.
  - destruct (range_ok lo hi) eqn:Hr; [|done]. injection Hv as <-.
    unfold get_params, flip_coin, torch_rand, bind, ret, uniform_.
    rewrite Hr.
    destruct (range_ok sr.1 sr.2), (range_ok rr.1 rr.2),
      (range_ok ar.1 ar.2); reflexivity.
Qed.

Lemma get_params_ok vs vr sr rr ar g v :
  volume_at vs vr g = Some v → ranges_ok sr rr ar = true →
  get_params vs vr sr rr ar g = (inr (params_at g v sr rr ar), skip 9 g).
Proof.
  intros Hv Hr. rewrite (get_params_with_volume _ _ _ _ _ _ _ Hv).
  unfold ranges_ok in Hr. apply andb_prop in Hr as [Hr Ha].
  apply andb_prop in Hr as [Hs Hr]. by rewrite Hs, Hr, Ha.
Qed.

Lemma get_params_fails vs vr sr rr ar g :
  volume_at vs vr g = None →
  ∃ e g', get_params vs vr sr rr ar g = (inl e, g').
Proof.
  unfold volume_at. intros Hv.
  destruct vs as [[|x l]|]; [|  |destruct vr as [[lo hi]|]].
  - by eexists _, _.
  - cbn [length] in Hv.
    unfold get_params, flip_coin, torch_randint, torch_rand, bind, ret.
    cbn [length]. cbn beta iota.
    change (rng_draws (advance g) (rng_pos (advance g))) with (draw g 1).
    rewrite Hv. by eexists _, _.
  - destruct (range_ok lo hi) eqn:Hr; [done|].
    unfold get_params, flip_coin, torch_rand, bind, ret, uniform_.
    rewrite Hr. by eexists _, _.
  - by eexists _, _.
Qed.

Lemma unit_draws_draw g k :
  unit_draws g →
  (0 <= draw g k)%Q ∧ (draw g k <= 1 - eps32)%Q ∧ (draw g k < 1)%Q.
Proof.
  intros H. destruct (H (k + rng_pos g)) as (j & [Hj0 Hj1] & E).
  unfold draw. rewrite E.
  assert (He : (0 < eps32)%Q) by apply pow2_pos.
  assert (E1 : (1 == inject_Z (2 ^ 24) * eps32)%Q) by reflexivity.
  rewrite Zle_Qle in Hj0. change (inject_Z 0) with 0%Q in Hj0.
  assert (Hj2 : (j <= 2 ^ 24 - 1)%Z) by lia.
  rewrite Zle_Qle in Hj2. unfold Z.sub in Hj2.
  rewrite inject_Z_plus, inject_Z_opp in Hj2.
  change (inject_Z 1) with 1%Q in Hj2.
  set (J := inject_Z j) in *. set (T := inject_Z (2 ^ 24)) in *.
  clearbody J T. repeat split; nra.
Qed.

Lemma volume_at_samplable vs vr g :
  samplable vs vr → unit_draws g → is_Some (volume_at vs vr g).
Proof.
  intros Hs Hu. unfold volume_at. destruct vs as [l|].
  - apply lookup_lt_is_Some.
    destruct (unit_draws_draw g 1 Hu) as (H0 & _ & H1).
    apply index_of_lt; [done..|]. destruct l; [done|cbn; lia].
  - destruct Hs as (lo & hi & -> & ->). eauto.
Qed.

Lemma params_at_lookup g v sr rr ar :
  let p := params_at g v sr rr ar in
  p !! "hemisphere" = Some (PStr (Hemisphere_value (hemisphere_at g))) ∧
  p !! "volume" = Some (PNum v) ∧
  p !! "sigmas" = Some (PList [scaled sr g 2; scaled sr g 3; scaled sr g 4]) ∧
  p !! "radii_ratio" = Some (PNum (scaled rr g 5)) ∧
  p !! "angles" = Some (PList [scaled ar g 6; scaled ar g 7; scaled ar g 8]) ∧
  p !! "resection_center" = None.
Proof. cbn zeta. unfold params_at. by simplify_map_eq. Qed.

Lemma params_at_dom g v sr rr ar : dom (params_at g v sr rr ar) = param_keys.
Proof.
  unfold params_at, param_keys. rewrite !dom_insert_L, dom_empty_L.
  set_solver.
Qed.

Lemma get_params_inv vs vr sr rr ar g p g' :
  get_params vs vr sr rr ar g = (inr p, g') →
  ∃ v, volume_at vs vr g = Some v ∧ p = params_at g v sr rr ar ∧
       g' = skip 9 g.
Proof.
  intros Hrun. destruct (volume_at vs vr g) as [v|] eqn:Hv.
  - rewrite (get_params_with_volume _ _ sr rr ar _ _ Hv) in Hrun.
    destruct (range_ok sr.1 sr.2), (range_ok rr.1 rr.2),
      (range_ok ar.1 ar.2); try discriminate.
    injection Hrun as <- <-. eauto.
  - destruct (get_params_fails vs vr sr rr ar g Hv) as (e & g1 & Hf).
    congruence.
Qed.


Lemma range_ok_le lo hi : range_ok lo hi = true → (lo <= hi)%Q.
Proof.
  unfold range_ok. intros H. apply andb_prop in H as [H _].
  apply andb_prop in H as [_ H]. by apply Qle_bool_iff.
Qed.

(** A sample of an accepted range lies between the binary32 roundings of
    its bounds. *)
Lemma scale_in_range32 (lo hi u : Q) :
  (lo <= hi)%Q → (0 <= u)%Q → (u <= 1 - eps32)%Q →
  in_range32 (lo, hi) (scale lo hi u).
Proof.
  intros Hr H0 H1. unfold in_range32, scale; cbn [fst snd].
  apply sample32_bounds; [apply round32_float..| |done|done].
  by apply round32_mono.
Qed.



Lemma cycle8_unit_draws start : unit_draws (Fixture.cycle8 start).
Proof.
  intros i. unfold Fixture.cycle8; cbn [rng_draws].
  pose proof (Nat.mod_upper_bound i 8 ltac:(lia)) as Hlt.
  assert (Hk : (0 <= Z.of_nat (i mod 8) < 8)%Z) by lia.
  set (k := Z.of_nat (i mod 8)) in *. clearbody k.
  exists (k * 2097152)%Z.
  change (2 ^ 24)%Z with 16777216%Z. split; [lia|].
  change eps32 with (1 # 16777216)%Q. unfold Qeq; cbn. lia.
Qed.

(** ** Sampled parameters *)






(** C7. The hemisphere is a coin flip on one unit draw [u]: [flip_coin]
    consumes exactly that draw and answers [u >= 1/2]; the dictionary holds
    "left" exactly when [u >= 1/2] and "right" exactly when [u < 1/2]. The
    two outcomes split the unit interval into halves of equal length:
    shifting a draw of the lower half by 1/2 turns "right" into "left". *)
Theorem hemisphere_fair_coin (g : rng) :
  flip_coin g = (inr (Qle_bool (1 # 2) (draw g 0)), skip 1 g) ∧
  (∀ vs vr sr rr ar p g',
     get_params vs vr sr rr ar g = (inr p, g') →
     (p !! "hemisphere" = Some (PStr "left") ↔ (1 # 2 <= draw g 0)%Q) ∧
     (p !! "hemisphere" = Some (PStr "right") ↔ (draw g 0 < 1 # 2)%Q)) ∧
  (∀ h, (0 <= draw g 0)%Q → (draw g 0 < 1 # 2)%Q →
        (draw h 0 == draw g 0 + (1 # 2))%Q →
        fst (flip_coin g) = inr false ∧ fst (flip_coin h) = inr true ∧
        (draw h 0 < 1)%Q).
Proof.
  split; [reflexivity|]. split.
  - intros vs vr sr rr ar p g' Hrun.
    destruct (get_params_inv _ _ _ _ _ _ _ _ Hrun) as (v & _ & -> & _).
    destruct (params_at_lookup g v sr rr ar) as (-> & _).
    unfold hemisphere_at.
    destruct (Qle_bool (1 # 2) (draw g 0)) eqn:Hc; cbn.
    + apply Qle_bool_iff in Hc. split; split; try done.
      intros Hlt. exfalso. lra.
    + assert (Hlt : (draw g 0 < 1 # 2)%Q).
      { apply Qnot_le_lt. intros Hle. apply Qle_bool_iff in Hle. congruence. }
      split; split; try done. intros Hle. exfalso. lra.
  - intros h H0 Hlt Hshift. unfold flip_coin, bind, torch_rand, ret; cbn.
    change (rng_draws g (rng_pos g)) with (draw g 0).
    change (rng_draws h (rng_pos h)) with (draw h 0).
    repeat split.
    + f_equal. destruct (Qle_bool (1 # 2) (draw g 0)) eqn:Hc; [|done].
      apply Qle_bool_iff in Hc. exfalso. lra.
    + f_equal. apply Qle_bool_iff. lra.
    + lra.
Qed.

Lemma hemisphere_fair_coin_witness :
  (params_at (Fixture.cycle8 1) (scale 50 5000 (2 # 8))
     default_sigmas_range default_radii_ratio_range default_angles_range
     !! "hemisphere" = Some (PStr "right") ↔ (1 # 8 < 1 # 2)%Q) ∧
  fst (flip_coin (Fixture.cycle8 1)) = inr false ∧
  fst (flip_coin (Fixture.cycle8 5)) = inr true.
Proof.
  destruct (hemisphere_fair_coin (Fixture.cycle8 1)) as (_ & Hp & Hshift).
  split.
  - apply (Hp None (Some (50, 5000)%Q) default_sigmas_range
             default_radii_ratio_range default_angles_range _
             (skip 9 (Fixture.cycle8 1))).
    reflexivity.
  - destruct (Hshift (Fixture.cycle8 5)) as (Hg & Hh & _).
    + vm_compute. discriminate.
    + vm_compute. reflexivity.
    + vm_compute. reflexivity.
    + split; [exact Hg | exact Hh].
Defined.

(** C10. For a configuration [get_params] can sample from (a non-empty
    catalog, or no catalog and a volume range, and every range one that
    [uniform_] accepts: within the binary32 range and [lo <= hi]), the call
    returns a dictionary with exactly the keys hemisphere, volume, sigmas,
    radii_ratio and angles: hemisphere is the string "left" or "right" (the
    member's value, not the member), sigmas and angles are lists of three
    numbers, volume and radii_ratio are numbers, and there is no
    resection_center. Nine draws are consumed. *)
Theorem get_params_dictionary vs vr sr rr ar g :
  samplable vs vr → ranges_ok sr rr ar = true → unit_draws g →
  ∃ p, get_params vs vr sr rr ar g = (inr p, skip 9 g) ∧
    dom p = param_keys ∧
    (p !! "hemisphere" = Some (PStr "left") ∨
     p !! "hemisphere" = Some (PStr "right")) ∧
    (∀ h, p !! "hemisphere" ≠ Some (PEnum h)) ∧
    (∃ v, p !! "volume" = Some (PNum v)) ∧
    (∃ s1 s2 s3, p !! "sigmas" = Some (PList [s1; s2; s3])) ∧
    (∃ r, p !! "radii_ratio" = Some (PNum r)) ∧
    (∃ a1 a2 a3, p !! "angles" = Some (PList [a1; a2; a3])) ∧
    p !! "resection_center" = None.
Proof.
  intros Hs Hr Hu. destruct (volume_at_samplable vs vr g Hs Hu) as [v Hv].
  exists (params_at g v sr rr ar).
  split; [by apply get_params_ok|]. split; [apply params_at_dom|].
  destruct (params_at_lookup g v sr rr ar)
    as (Hh & Hvol & Hsig & Hrat & Hang & Hc).
  rewrite Hh, Hvol, Hsig, Hrat, Hang, Hc.
  repeat split; eauto.
  destruct (hemisphere_at g); cbn; eauto.
Qed.

Lemma get_params_dictionary_witness :
  ∃ p, get_params (Some [120; 4000]%Q) None default_sigmas_range
         default_radii_ratio_range default_angles_range (Fixture.cycle8 3)
       = (inr p, skip 9 (Fixture.cycle8 3)) ∧
    dom p = param_keys ∧
    (p !! "hemisphere" = Some (PStr "left") ∨
     p !! "hemisphere" = Some (PStr "right")) ∧
    (∀ h, p !! "hemisphere" ≠ Some (PEnum h)) ∧
    (∃ v, p !! "volume" = Some (PNum v)) ∧
    (∃ s1 s2 s3, p !! "sigmas" = Some (PList [s1; s2; s3])) ∧
    (∃ r, p !! "radii_ratio" = Some (PNum r)) ∧
    (∃ a1 a2 a3, p !! "angles" = Some (PList [a1; a2; a3])) ∧
    p !! "resection_center" = None.
Proof.
  apply (get_params_dictionary (Some [120; 4000]%Q) None).
  - cbn. discriminate.
  - vm_compute. reflexivity.
  - apply cycle8_unit_draws.
Defined.




(** ** Channels *)

Lemma add_background_channel_eq (fg : ndarray) :
  add_background_channel fg =
    inr {| shape := 2 :: shape fg;
           data := map (λ v, (1 - v)%Q) (data fg) ++ data fg |}.
Proof.
  unfold add_background_channel, np_stack, rsub_one; cbn.
  rewrite bool_decide_eq_true_2 by done. cbn. by rewrite app_nil_r.
Qed.

Lemma slice_stack_0 (s : list nat) (d0 d1 : list Q) :
  length d0 = size_of s →
  slice 0 {| shape := 2 :: s; data := d0 ++ d1 |}
  = inr {| shape := s; data := d0 |}.
Proof.
  intros Hlen. unfold slice; cbn [shape data].
  rewrite decide_True by lia. rewrite Nat.mul_0_l, drop_0.
  by rewrite take_app_length'.
Qed.

Lemma slice_stack_1 (s : list nat) (d0 d1 : list Q) :
  length d0 = size_of s → length d1 = size_of s →
  slice 1 {| shape := 2 :: s; data := d0 ++ d1 |}
  = inr {| shape := s; data := d1 |}.
Proof.
  intros H0 H1. unfold slice; cbn [shape data].
  rewrite decide_True by lia. rewrite Nat.mul_1_l.
  rewrite drop_app_length' by done. by rewrite take_ge by lia.
Qed.

Lemma binary_complement (v : Q) : binary v → binary (1 - v)%Q.
Proof. intros [H|H]; [right|left]; rewrite H; reflexivity. Qed.

(** C2. For a foreground mask with every voxel in {0, 1},
    [add_background_channel] returns a label with two channels along a new
    first axis: channel 1 is the foreground itself, channel 0 is
    [1 - foreground] voxel by voxel; both channels are binary and they sum
    to 1 at every voxel. *)
Theorem add_background_channel_complement (fg : ndarray) :
  well_shaped fg → Forall binary (data fg) →
  ∃ label bg,
    add_background_channel fg = inr label ∧
    shape label = 2 :: shape fg ∧
    slice 0 label = inr bg ∧
    slice 1 label = inr fg ∧
    shape bg = shape fg ∧
    data bg = map (λ v, (1 - v)%Q) (data fg) ∧
    Forall binary (data bg) ∧
    Forall2 (λ b f, (b + f == 1)%Q) (data bg) (data fg).
Proof.
  intros Hw Hb. unfold well_shaped in Hw.
  exists {| shape := 2 :: shape fg;
            data := map (λ v, (1 - v)%Q) (data fg) ++ data fg |},
         (rsub_one fg).
  split; [apply add_background_channel_eq|]. split; [done|].
  split; [apply slice_stack_0; by rewrite length_map|].
  split.
  { rewrite slice_stack_1 by (by rewrite ?length_map). by destruct fg. }
  split; [done|]. split; [done|]. cbn [rsub_one data]. split.
  - apply Forall_map. eapply Forall_impl; [exact Hb|].
    intros v Hv. by apply binary_complement.
  - clear. induction (data fg) as [|v d IH]; cbn; constructor; [ring|done].
Qed.

Lemma add_background_channel_complement_witness :
  ∃ label bg,
    add_background_channel {| shape := [1; 1; 2]; data := [0; 1]%Q |}
    = inr label ∧
    shape label = [2; 1; 1; 2] ∧
    slice 0 label = inr bg ∧
    slice 1 label = inr {| shape := [1; 1; 2]; data := [0; 1]%Q |} ∧
    shape bg = [1; 1; 2] ∧
    data bg = map (λ v, (1 - v)%Q) [0; 1]%Q ∧
    Forall binary (data bg) ∧
    Forall2 (λ b f, (b + f == 1)%Q) (data bg) [0; 1]%Q.
Proof.
  apply (add_background_channel_complement
           {| shape := [1; 1; 2]; data := [0; 1]%Q |}).
  - reflexivity.
  - constructor; [left; reflexivity|].
    constructor; [right; reflexivity|]. constructor.
Defined.

(** ** Running [__call__] step by step *)

Lemma bind_inr {S A B} (c : M S A) (k : A → M S B) s b s' :
  bind c k s = (inr b, s') →
  ∃ a s1, c s = (inr a, s1) ∧ k a s1 = (inr b, s').
Proof.
  unfold bind. destruct (c s) as [[e|a] s1]; [done|]. eauto.
Qed.

Lemma bind_inl {S A B} (c : M S A) (k : A → M S B) s e s' :
  bind c k s = (inl e, s') →
  c s = (inl e, s') ∨ ∃ a s1, c s = (inr a, s1) ∧ k a s1 = (inl e, s').
Proof.
  unfold bind. destruct (c s) as [[e1|a] s1]; [intros [= -> ->]; by left|].
  eauto.
Qed.

Lemma keeps_sample_get key : keeps_sample (sample_get key).
Proof.
  intros w r w1. unfold sample_get.
  by destruct (w_sample w !! key); intros [= <- <-].
Qed.

Lemma keeps_of_sum {A} (x : exn + A) : keeps_sample (of_sum x).
Proof. intros w r w1. by destruct x; cbn; intros [= <- <-]. Qed.

Lemma keeps_lift_rng {A} (c : M rng A) : keeps_sample (lift_rng c).
Proof.
  intros w r w1. unfold lift_rng. destruct (c (w_rng w)).
  intros [= <- <-]. done.
Qed.

Lemma keeps_dict_get p key : keeps_sample (dict_get p key).
Proof.
  intros w r w1. unfold dict_get. by destruct (p !! key); cbn; intros [= <- <-].
Qed.

Lemma keeps_format_field v : keeps_sample (format_field v).
Proof. intros w r w1. by destruct v; cbn; intros [= <- <-]. Qed.

Lemma keeps_assert b : keeps_sample (assert b).
Proof. intros w r w1. by destruct b; cbn; intros [= <- <-]. Qed.

Lemma keeps_when_print b line : keeps_sample (when b (print line)).
Proof. intros w r w1. destruct b; cbn; intros [= <- <-]; done. Qed.

Lemma sample_get_inr key w a w1 :
  sample_get key w = (inr a, w1) → w1 = w ∧ w_sample w !! key = Some a.
Proof.
  unfold sample_get. by destruct (w_sample w !! key); intros [= <- <-].
Qed.

Lemma of_sum_inr {A} (x : exn + A) (w : world) a w1 :
  of_sum x w = (inr a, w1) → w1 = w ∧ x = inr a.
Proof. by destruct x; cbn; intros [= <- <-]. Qed.

Lemma dict_get_inr p key (w : world) a w1 :
  dict_get p key w = (inr a, w1) → w1 = w ∧ p !! key = Some a.
Proof. unfold dict_get. by destruct (p !! key); cbn; intros [= <- <-]. Qed.

Lemma format_field_inr v (w : world) s w1 :
  format_field v w = (inr s, w1) → w1 = w ∧ v = PStr s.
Proof. by destruct v; cbn; intros [= <- <-]. Qed.

Lemma assert_inr b (w : world) u w1 :
  assert b w = (inr u, w1) → w1 = w ∧ b = true.
Proof. by destruct b; cbn; intros [= <- <-]. Qed.

Lemma lift_rng_inr {A} (c : M rng A) w a w1 :
  lift_rng c w = (inr a, w1) →
  ∃ g, c (w_rng w) = (inr a, g) ∧ w_rng w1 = g ∧
       w_sample w1 = w_sample w.
Proof.
  unfold lift_rng. destruct (c (w_rng w)) as [r g].
  intros [= -> <-]. eauto.
Qed.

Lemma when_print_inr b line w u w1 :
  when b (print line) w = (inr u, w1) →
  w_rng w1 = w_rng w ∧ w_sample w1 = w_sample w.
Proof. by destruct b; cbn; intros [= <- <-]. Qed.

Lemma sample_set_inr key v w u w1 :
  sample_set key v w = (inr u, w1) →
  w_rng w1 = w_rng w ∧ w_sample w1 = <[key := v]> (w_sample w).
Proof. by intros [= <- <-]. Qed.

Lemma sample_del_inr key w u w1 :
  sample_del key w = (inr u, w1) →
  is_Some (w_sample w !! key) ∧ w_sample w1 = delete key (w_sample w).
Proof.
  unfold sample_del. destruct (w_sample w !! key) eqn:E; intros [= <- <-].
  eauto.
Qed.

Lemma sample_del_inl key w e w1 :
  sample_del key w = (inl e, w1) →
  w_sample w !! key = None ∧ e = KeyError key ∧ w1 = w.
Proof.
  unfold sample_del. by destruct (w_sample w !! key) eqn:E; intros [= <- <-].
Qed.

Create HintDb frame.
#[local] Hint Resolve keeps_sample_get keeps_of_sum keeps_lift_rng
  keeps_dict_get keeps_format_field keeps_assert keeps_when_print : frame.

Section TransformFacts.
Variable SitkImage : Type.
Variable GetArrayFromImage : SitkImage → ndarray.
Variable nib_to_sitk : value → value → exn + SitkImage.
Variable _resect :
  SitkImage → SitkImage → SitkImage → SitkImage →
  pvalue → pvalue → pvalue → pvalue → bool →
  M rng (SitkImage * SitkImage * pvalue).

Local Abbreviation call :=
  (__call__ SitkImage GetArrayFromImage nib_to_sitk _resect).

Ltac peel H :=
  repeat first [ rewrite lookup_delete_ne in H by done
               | rewrite lookup_insert_ne in H by done ].

Ltac pure_step H :=
  let Hc := fresh "Hc" in
  let a := fresh "a" in
  let w1 := fresh "w" in
  apply bind_inr in H as (a & w1 & Hc & H);
  first [ apply sample_get_inr in Hc as [-> Hc]
        | apply of_sum_inr in Hc as [-> Hc]
        | apply dict_get_inr in Hc as [-> Hc]
        | apply format_field_inr in Hc as [-> Hc]
        | apply assert_inr in Hc as [-> Hc] ];
  cbn beta zeta in H.

Lemma call_inr self w s w' :
  call self w = (inr s, w') →
  ∃ params g1 brain gm rmask noise vol sig rat ang rb rm center g2
    barr marr label,
    get_params (volumes self) (volumes_range self) (sigmas_range self)
      (radii_ratio_range self) (angles_range self) (w_rng w)
    = (inr params, g1) ∧
    params !! "volume" = Some vol ∧ params !! "sigmas" = Some sig ∧
    params !! "radii_ratio" = Some rat ∧ params !! "angles" = Some ang ∧
    _resect brain gm rmask noise vol sig rat ang (verbose self) g1
    = (inr (rb, rm, center), g2) ∧
    sitk_to_array SitkImage GetArrayFromImage rb = inr barr ∧
    sitk_to_array SitkImage GetArrayFromImage rm = inr marr ∧
    add_background_channel marr = inr label ∧
    s = w_sample w' ∧
    let upd := updated_sample (w_sample w)
                 (<["resection_center" := center]> params)
                 (add_channels_axis barr) label in
    if delete_keys self
    then Forall (λ k, is_Some (w_sample w !! k)) consumed_keys ∧
         w_sample w' = without_consumed upd
    else w_sample w' = upd.
Proof.
  intros H. unfold __call__ in H.
  apply bind_inr in H as (params & w1 & Hc & H).
  apply lift_rng_inr in Hc as (g1 & Hparams & Hg1 & Hs1).
  do 15 pure_step H.
  apply bind_inr in H as (u1 & w2 & Hp1 & H).
  apply when_print_inr in Hp1 as [Hg2 Hs2].
  do 4 pure_step H.
  apply bind_inr in H as ([[rb rm] center] & w3 & Hr & H).
  apply lift_rng_inr in Hr as (g2 & Hresect & Hg3 & Hs3).
  rewrite Hg2, Hg1 in Hresect. cbn beta iota zeta in H.
  do 5 pure_step H.
  apply bind_inr in H as (u2 & w4 & Hset1 & H).
  apply sample_set_inr in Hset1 as [_ Hs4].
  apply bind_inr in H as (u3 & w5 & Hset2 & H).
  apply sample_set_inr in Hset2 as [_ Hs5].
  apply bind_inr in H as (u4 & w6 & Hset3 & H).
  apply sample_set_inr in Hset3 as [_ Hs6].
  apply bind_inr in H as (u5 & w7 & Hdel & H).
  apply bind_inr in H as (u6 & w8 & Hp2 & H).
  apply when_print_inr in Hp2 as [_ Hs8].
  injection H as <- <-.
  assert (Hupd : w_sample w6 =
                 updated_sample (w_sample w)
                   (<["resection_center" := center]> params)
                   (add_channels_axis a18) a20).
  { unfold updated_sample. by rewrite Hs6, Hs5, Hs4, Hs3, Hs2, Hs1. }
  do 17 eexists.
  split; [exact Hparams|]. do 4 (split; [eassumption|]).
  split; [exact Hresect|]. do 3 (split; [eassumption|]).
  split; [done|]. cbn zeta. rewrite Hs8.
  destruct (delete_keys self); cbn [when] in Hdel.
  - apply bind_inr in Hdel as (? & d1 & Hd1 & Hdel).
    apply sample_del_inr in Hd1 as [Hk1 Hd1].
    apply bind_inr in Hdel as (? & d2 & Hd2 & Hdel).
    apply sample_del_inr in Hd2 as [Hk2 Hd2].
    apply bind_inr in Hdel as (? & d3 & Hd3 & Hdel).
    apply sample_del_inr in Hd3 as [Hk3 Hd3].
    apply bind_inr in Hdel as (? & d4 & Hd4 & Hdel).
    apply sample_del_inr in Hd4 as [Hk4 Hd4].
    apply sample_del_inr in Hdel as [Hk5 Hd5].
    rewrite Hd4, Hd3, Hd2, Hd1, Hupd in Hk5, Hd5.
    rewrite Hd3, Hd2, Hd1, Hupd in Hk4.
    rewrite Hd2, Hd1, Hupd in Hk3.
    rewrite Hd1, Hupd in Hk2. rewrite Hupd in Hk1.
    split; [|exact Hd5].
    unfold updated_sample in Hk1, Hk2, Hk3, Hk4, Hk5.
    peel Hk1; peel Hk2; peel Hk3; peel Hk4; peel Hk5.
    unfold consumed_keys. repeat (constructor; [assumption|]). constructor.
  - injection Hdel as Hw. subst w7. exact Hupd.
Qed.

Ltac keep_step H Hs :=
  lazymatch type of H with
  | bind ?c ?k ?wc = _ =>
      let K := fresh "K" in
      let Hc := fresh "Hc" in
      let a := fresh "a" in
      let w1 := fresh "w" in
      assert (K : keeps_sample c) by eauto with frame;
      apply bind_inl in H as [H | (a & w1 & Hc & H)];
      [ left; transitivity (w_sample wc); [exact (K _ _ _ H) | exact Hs]
      | apply K in Hc; rewrite Hs in Hc; clear Hs K; rename Hc into Hs;
        cbn beta zeta in H ]
  end.

Lemma call_inl self w e w' :
  call self w = (inl e, w') →
  w_sample w' = w_sample w ∨
  delete_keys self = true ∧
  ∃ k, k ∈ consumed_keys ∧ w_sample w !! k = None ∧ e = KeyError k.
Proof.
  intros H. unfold __call__ in H.
  pose (base := w_sample w). assert (Hs : w_sample w = base) by done.
  change (w_sample w' = base ∨
          delete_keys self = true ∧
          ∃ k, k ∈ consumed_keys ∧ base !! k = None ∧ e = KeyError k).
  clearbody base.
  do 22 keep_step H Hs.
  destruct a20 as [[rb rm] center]. cbn beta iota zeta in H.
  do 5 keep_step H Hs.
  apply bind_inl in H as [H | (? & y1 & Hset1 & H)]; [done|].
  apply sample_set_inr in Hset1 as [_ Hs1].
  apply bind_inl in H as [H | (? & y2 & Hset2 & H)]; [done|].
  apply sample_set_inr in Hset2 as [_ Hs2].
  apply bind_inl in H as [H | (? & y3 & Hset3 & H)]; [done|].
  apply sample_set_inr in Hset3 as [_ Hs3].
  rewrite Hs2, Hs1, Hs in Hs3. clear Hs Hs1 Hs2.
  apply bind_inl in H as [H | (? & y4 & Hdel & H)].
  - right. destruct (delete_keys self); [|done]. split; [done|].
    cbn [when] in H.
    apply bind_inl in H as [H | (? & d1 & Hd1 & H)].
    { apply sample_del_inl in H as (Hk & -> & _). rewrite Hs3 in Hk. peel Hk.
      exists "gray_matter_left". unfold consumed_keys. set_solver. }
    apply sample_del_inr in Hd1 as [_ Hd1]. rewrite Hs3 in Hd1.
    apply bind_inl in H as [H | (? & d2 & Hd2 & H)].
    { apply sample_del_inl in H as (Hk & -> & _). rewrite Hd1 in Hk. peel Hk.
      exists "gray_matter_right". unfold consumed_keys. set_solver. }
    apply sample_del_inr in Hd2 as [_ Hd2]. rewrite Hd1 in Hd2.
    apply bind_inl in H as [H | (? & d3 & Hd3 & H)].
    { apply sample_del_inl in H as (Hk & -> & _). rewrite Hd2 in Hk. peel Hk.
      exists "resectable_left". unfold consumed_keys. set_solver. }
    apply sample_del_inr in Hd3 as [_ Hd3]. rewrite Hd2 in Hd3.
    apply bind_inl in H as [H | (? & d4 & Hd4 & H)].
    { apply sample_del_inl in H as (Hk & -> & _). rewrite Hd3 in Hk. peel Hk.
      exists "resectable_right". unfold consumed_keys. set_solver. }
    apply sample_del_inr in Hd4 as [_ Hd4]. rewrite Hd3 in Hd4.
    apply sample_del_inl in H as (Hk & -> & _). rewrite Hd4 in Hk. peel Hk.
    exists "noise". unfold consumed_keys. set_solver.
  - apply bind_inl in H as [H | (? & y5 & Hp & H)]; [|done].
    by destruct (verbose self).
Qed.

Ltac kept_step H Hs :=
  lazymatch type of H with
  | bind ?c ?k ?wc = _ =>
      let K := fresh "K" in
      let Hc := fresh "Hc" in
      let Hk := fresh "Hk" in
      let a := fresh "a" in
      let w1 := fresh "w" in
      assert (K : keeps_sample c) by eauto with frame;
      apply bind_inl in H as [H | (a & w1 & Hc & H)];
      [ transitivity (w_sample wc); [exact (K _ _ _ H) | exact Hs]
      | pose proof (K _ _ _ Hc) as Hk; rewrite Hs in Hk; clear Hs K;
        rename Hk into Hs; cbn beta zeta in H ]
  end.

(** A call whose sampled volume [_resect] refuses raises, whatever the
    sample holds, and has written nothing. *)
Lemma call_refused_by_resect self w params g1 vol :
  get_params (volumes self) (volumes_range self) (sigmas_range self)
    (radii_ratio_range self) (angles_range self) (w_rng w)
  = (inr params, g1) →
  params !! "volume" = Some vol →
  (∀ brain gm rmask noise sig rat ang g,
     ∃ e g', _resect brain gm rmask noise vol sig rat ang (verbose self) g
             = (inl e, g')) →
  ∃ e w', call self w = (inl e, w') ∧ w_sample w' = w_sample w.
Proof.
  intros Hgp Hvol Href.
  destruct (call self w) as [[e|s] w'] eqn:H.
  - exists e, w'. split; [done|]. unfold __call__ in H.
    pose (base := w_sample w). assert (Hs : w_sample w = base) by done.
    change (w_sample w' = base). clearbody base.
    do 22 kept_step H Hs.
    match goal with
    | Hx : lift_rng (get_params _ _ _ _ _) _ = _ |- _ =>
        apply lift_rng_inr in Hx as (g0 & Hx & _); rewrite Hgp in Hx;
        injection Hx as <- <-
    end.
    match goal with
    | Hx : dict_get _ "volume" _ = _ |- _ =>
        apply dict_get_inr in Hx as [_ Hx]; rewrite Hvol in Hx;
        injection Hx as <-
    end.
    match goal with
    | Hx : lift_rng (_resect _ _ _ _ _ _ _ _ _) _ = _ |- _ =>
        apply lift_rng_inr in Hx as (g2 & Hx & _);
        match type of Hx with
        | _resect ?b ?gm ?r ?n _ ?sg ?rt ?an _ ?g = _ =>
            destruct (Href b gm r n sg rt an g) as (e0 & g' & He);
            rewrite He in Hx; discriminate
        end
    end.
  - apply call_inr in H
      as (params' & g1' & brain & gm & rmask & noise & vol' & sig & rat
          & ang & rb & rm & center & g2 & barr & marr & label
          & Hgp' & Hvol' & _ & _ & _ & Hres & _).
    rewrite Hgp in Hgp'. injection Hgp' as <- <-.
    rewrite Hvol in Hvol'. injection Hvol' as <-.
    destruct (Href brain gm rmask noise sig rat ang g1) as (e0 & g' & He).
    rewrite He in Hres. done.
Qed.

Lemma sitk_to_array_ndim image array :
  sitk_to_array SitkImage GetArrayFromImage image = inr array →
  ndim array = 3.
Proof.
  unfold sitk_to_array, transpose_210.
  destruct (shape (GetArrayFromImage image)) as [|n0 [|n1 [|n2 [|n3 s]]]];
    intros [= <-]; done.
Qed.

(** ** The sample after a call *)

(** C3, as the code has it. A call that raises leaves the sample record
    as it was, provided [delete_keys] is off or the sample holds the five
    keys the call deletes. *)
Theorem call_failure_keeps_sample self w e w' :
  call self w = (inl e, w') →
  delete_keys self = false ∨
    Forall (λ k, is_Some (w_sample w !! k)) consumed_keys →
  w_sample w' = w_sample w.
Proof.
  intros Hrun Hpre.
  destruct (call_inl self w e w' Hrun) as [Hkeep | (Hdk & k & Hk & Hnone & _)];
    [done|].
  destruct Hpre as [Hoff | Hall]; [congruence|].
  rewrite Forall_forall in Hall. apply Hall in Hk.
  rewrite Hnone in Hk. by destruct Hk.
Qed.

(** C8. A successful call returns the sample it was given, in which
    "image" is the resected array under a new first axis of size 1 (four
    axes in all), "label" has two channels along a new first axis, the
    background [1 - mask] first and the mask second, and
    "random_resection" is the sampled dictionary with the centre that
    [_resect] returned added under "resection_center". *)
Theorem call_writes_image_label_params self w s w' :
  call self w = (inr s, w') →
  s = w_sample w' ∧
  ∃ params g1 brain gm rmask noise vol sig rat ang rb rm center g2
    barr marr,
    get_params (volumes self) (volumes_range self) (sigmas_range self)
      (radii_ratio_range self) (angles_range self) (w_rng w)
    = (inr params, g1) ∧
    _resect brain gm rmask noise vol sig rat ang (verbose self) g1
    = (inr (rb, rm, center), g2) ∧
    sitk_to_array SitkImage GetArrayFromImage rb = inr barr ∧
    sitk_to_array SitkImage GetArrayFromImage rm = inr marr ∧
    ndim barr = 3 ∧ ndim marr = 3 ∧
    s !! "image"
    = Some (VArray {| shape := 1 :: shape barr; data := data barr |}) ∧
    s !! "label"
    = Some (VArray {| shape := 2 :: shape marr;
                      data := map (λ v, (1 - v)%Q) (data marr)
                              ++ data marr |}) ∧
    s !! "random_resection"
    = Some (VParams (<["resection_center" := center]> params)) ∧
    dom (<["resection_center" := center]> params)
    = param_keys ∪ {["resection_center"]} ∧
    (<["resection_center" := center]> params) !! "resection_center"
    = Some center.
Proof.
  intros Hrun.
  destruct (call_inr self w s w' Hrun)
    as (params & g1 & brain & gm & rmask & noise & vol & sig & rat & ang
        & rb & rm & center & g2 & barr & marr & label & Hparams & _ & _
        & _ & _ & Hresect & Hbarr & Hmarr & Hlabel & -> & Hfinal).
  split; [done|].
  exists params, g1, brain, gm, rmask, noise, vol, sig, rat, ang, rb, rm,
    center, g2, barr, marr.
  rewrite add_background_channel_eq in Hlabel. injection Hlabel as <-.
  do 4 (split; [done|]).
  split; [by eapply sitk_to_array_ndim|].
  split; [by eapply sitk_to_array_ndim|].
  assert (Hlook :
    w_sample w' !! "image"
    = Some (VArray {| shape := 1 :: shape barr; data := data barr |}) ∧
    w_sample w' !! "label"
    = Some (VArray {| shape := 2 :: shape marr;
                      data := map (λ v, (1 - v)%Q) (data marr)
                              ++ data marr |}) ∧
    w_sample w' !! "random_resection"
    = Some (VParams (<["resection_center" := center]> params))).
  { cbn zeta in Hfinal.
    destruct (delete_keys self); [destruct Hfinal as [_ ->]|rewrite Hfinal];
      unfold without_consumed, updated_sample, add_channels_axis;
      by simplify_map_eq. }
  destruct Hlook as (Himg & Hlab & Hmeta).
  do 3 (split; [done|]).
  split; [|by simplify_map_eq].
  destruct (get_params_inv _ _ _ _ _ _ _ _ Hparams) as (v & _ & -> & _).
  rewrite dom_insert_L, params_at_dom. set_solver.
Qed.

(** C9. After a successful call with [delete_keys] on (the default of the
    constructor), the five consumed keys, all present before, are gone;
    with [delete_keys] off every key of the sample is still there. In
    both cases every key other than those five and other than image,
    label and random_resection maps to what it mapped to before, and the
    three written keys are present. *)
Theorem call_frame self w s w' :
  call self w = (inr s, w') →
  (delete_keys self = true →
     ∀ k, k ∈ consumed_keys →
          is_Some (w_sample w !! k) ∧ w_sample w' !! k = None) ∧
  (delete_keys self = true →
     ∀ k, k ∉ consumed_keys → k ∉ written_keys →
          w_sample w' !! k = w_sample w !! k) ∧
  (delete_keys self = false →
     (∀ k, k ∉ written_keys → w_sample w' !! k = w_sample w !! k) ∧
     dom (w_sample w) ⊆ dom (w_sample w')) ∧
  (∀ k, k ∈ written_keys → is_Some (w_sample w' !! k)) ∧
  (∀ vr vs g obj g',
     __init__defaults vr vs g = (inr obj, g') → delete_keys obj = true).
Proof.
  intros Hrun.
  destruct (call_inr self w s w' Hrun)
    as (params & g1 & brain & gm & rmask & noise & vol & sig & rat & ang
        & rb & rm & center & g2 & barr & marr & label & _ & _ & _
        & _ & _ & _ & _ & _ & _ & -> & Hfinal).
  cbn zeta in Hfinal. unfold consumed_keys, written_keys.
  split; [|split; [|split; [|split]]].
  - intros Hdk k Hk. rewrite Hdk in Hfinal. destruct Hfinal as [Hall ->].
    rewrite Forall_forall in Hall. split; [by apply Hall|].
    unfold without_consumed, updated_sample.
    set_unfold in Hk. destruct Hk as [->|[->|[->|[->|[->|[]]]]]];
      by simplify_map_eq.
  - intros Hdk k Hk1 Hk2. rewrite Hdk in Hfinal. destruct Hfinal as [_ ->].
    unfold without_consumed, updated_sample.
    set_unfold in Hk1. set_unfold in Hk2.
    rewrite !lookup_delete_ne, !lookup_insert_ne by naive_solver. done.
  - intros Hdk. rewrite Hdk in Hfinal. rewrite Hfinal.
    unfold updated_sample. split.
    + intros k Hk. set_unfold in Hk.
      rewrite !lookup_insert_ne by naive_solver. done.
    + rewrite !dom_insert. set_solver.
  - intros k Hk.
    assert (Hin : is_Some (updated_sample (w_sample w)
                             (<["resection_center" := center]> params)
                             (add_channels_axis barr) label !! k)).
    { unfold updated_sample. set_unfold in Hk.
      destruct Hk as [->|[->|[->|[]]]]; by simplify_map_eq. }
    destruct (delete_keys self); [destruct Hfinal as [_ ->]|by rewrite Hfinal].
    unfold without_consumed. set_unfold in Hk.
    destruct Hk as [->|[->|[->|[]]]];
      by rewrite !lookup_delete_ne.
  - intros vr vs g obj g'. unfold __init__defaults, __init__.
    destruct (_ || _); cbn; [done|]. by intros [= <- _].
Qed.

End TransformFacts.

(** ** A target volume that is not positive *)

Section GuardedTransform.
Variable SitkImage : Type.
Variable GetArrayFromImage : SitkImage → ndarray.
Variable nib_to_sitk : value → value → exn + SitkImage.
Variable compose :
  SitkImage → SitkImage → SitkImage → SitkImage →
  pvalue → pvalue → pvalue → pvalue → bool →
  M rng (SitkImage * SitkImage * pvalue).

(** C5, with the compositor as the spec has it. [get_params] and
    [__call__] do not look at the sign of the volume: the sampler returns
    it and the call hands it on to [_resect] as it is. With the [_resect]
    of the spec, which refuses a target volume [<= 0], a call whose sampled
    volume is [<= 0] raises instead of returning a sample, whatever the
    compositor would do with it, and the sample record is as it was. *)
Theorem nonpositive_volume_is_refused self w params g1 v :
  get_params (volumes self) (volumes_range self) (sigmas_range self)
    (radii_ratio_range self) (angles_range self) (w_rng w)
  = (inr params, g1) →
  params !! "volume" = Some (PNum v) →
  (v <= 0)%Q →
  ∃ e w',
    __call__ SitkImage GetArrayFromImage nib_to_sitk
      (guarded_resect compose) self w = (inl e, w') ∧
    w_sample w' = w_sample w.
Proof.
  intros Hgp Hvol Hv.
  apply (call_refused_by_resect _ _ _ _ self w params g1 (PNum v) Hgp Hvol).
  intros brain gm rmask noise sig rat ang g.
  exists (ValueError "the target volume must be positive"), g.
  unfold guarded_resect.
  by rewrite (proj2 (Qle_bool_iff v 0) Hv).
Qed.

End GuardedTransform.

(** ** Concrete runs *)

Lemma nonpositive_volume_is_refused_witness :
  ∃ e w',
    __call__ Fixture.image Fixture.get_array Fixture.to_sitk
      (guarded_resect Fixture.resect) Fixture.negative_catalog_config
      (Fixture.world_of 4 Fixture.full_sample) = (inl e, w') ∧
    w_sample w' = Fixture.full_sample.
Proof.
  apply (nonpositive_volume_is_refused Fixture.image Fixture.get_array
           Fixture.to_sitk Fixture.resect Fixture.negative_catalog_config
           (Fixture.world_of 4 Fixture.full_sample)
           (params_at (Fixture.cycle8 4) (-1) default_sigmas_range
              default_radii_ratio_range default_angles_range)
           (skip 9 (Fixture.cycle8 4)) (-1)%Q).
  - apply get_params_ok; vm_compute; reflexivity.
  - apply params_at_lookup.
  - vm_compute. discriminate.
Defined.

Lemma call_failure_keeps_sample_witness :
  fst (Fixture.call (Fixture.config false)
         (Fixture.world_of 0 Fixture.left_only_sample))
  = inl (KeyError "gray_matter_right") ∧
  w_sample (snd (Fixture.call (Fixture.config false)
                   (Fixture.world_of 0 Fixture.left_only_sample)))
  = Fixture.left_only_sample.
Proof.
  split; [vm_compute; reflexivity|].
  apply (call_failure_keeps_sample Fixture.image Fixture.get_array
           Fixture.to_sitk Fixture.resect (Fixture.config false)
           (Fixture.world_of 0 Fixture.left_only_sample)
           (KeyError "gray_matter_right")).
  - vm_compute. reflexivity.
  - left. reflexivity.
Defined.

(** C3, counterexample. The sample lacks the masks of the right hemisphere
    and the coin falls on the left: every read succeeds, the three results
    are written, "gray_matter_left" is deleted, and deleting
    "gray_matter_right" raises [KeyError]. The caller gets the exception
    and a sample that has a label it did not have and has lost a mask. *)
Lemma call_raises_after_writing :
  fst (Fixture.call (Fixture.config true)
         (Fixture.world_of 4 Fixture.left_only_sample))
  = inl (KeyError "gray_matter_right") ∧
  Fixture.left_only_sample !! "label" = None ∧
  is_Some (w_sample (snd (Fixture.call (Fixture.config true)
                            (Fixture.world_of 4 Fixture.left_only_sample)))
           !! "label") ∧
  is_Some (Fixture.left_only_sample !! "gray_matter_left") ∧
  w_sample (snd (Fixture.call (Fixture.config true)
                   (Fixture.world_of 4 Fixture.left_only_sample)))
  !! "gray_matter_left" = None ∧
  w_sample (snd (Fixture.call (Fixture.config true)
                   (Fixture.world_of 4 Fixture.left_only_sample)))
  ≠ Fixture.left_only_sample.
Proof.
  assert (Hlabel :
    is_Some (w_sample (snd (Fixture.call (Fixture.config true)
                              (Fixture.world_of 4 Fixture.left_only_sample)))
             !! "label")).
  { eexists. vm_compute. reflexivity. }
  split; [vm_compute; reflexivity|].
  split; [vm_compute; reflexivity|].
  split; [exact Hlabel|].
  split; [eexists; vm_compute; reflexivity|].
  split; [vm_compute; reflexivity|].
  intros Heq. rewrite Heq in Hlabel. destruct Hlabel as [v Hv].
  vm_compute in Hv. discriminate.
Qed.

Lemma call_writes_image_label_params_witness :
  ∃ s, fst (Fixture.call (Fixture.config true)
              (Fixture.world_of 4 Fixture.full_sample)) = inr s ∧
    s !! "image"
    = Some (VArray {| shape := [1; 1; 1; 1]; data := [100%Q] |}) ∧
    s !! "label"
    = Some (VArray {| shape := [2; 1; 1; 1]; data := [(1 - 1)%Q; 1%Q] |}) ∧
    ∃ p, s !! "random_resection" = Some (VParams p) ∧
         p !! "resection_center" = Some (PList [0; 0; 0]%Q).
Proof.
  destruct (call_writes_image_label_params Fixture.image Fixture.get_array
              Fixture.to_sitk Fixture.resect (Fixture.config true)
              (Fixture.world_of 4 Fixture.full_sample)
              (w_sample (snd (Fixture.call (Fixture.config true)
                                (Fixture.world_of 4 Fixture.full_sample))))
              (snd (Fixture.call (Fixture.config true)
                      (Fixture.world_of 4 Fixture.full_sample))))
    as (_ & _).
  { vm_compute. reflexivity. }
  eexists. split; [vm_compute; reflexivity|].
  split; [vm_compute; reflexivity|].
  split; [vm_compute; reflexivity|].
  eexists. split; vm_compute; reflexivity.
Defined.

Lemma call_frame_witness :
  (∀ k, k ∈ consumed_keys →
     is_Some (Fixture.full_sample !! k) ∧
     w_sample (snd (Fixture.call (Fixture.config true)
                      (Fixture.world_of 4 Fixture.full_sample))) !! k
     = None) ∧
  w_sample (snd (Fixture.call (Fixture.config true)
                   (Fixture.world_of 4 Fixture.full_sample))) !! "subject_id"
  = Some (VOther "sub-01").
Proof.
  destruct (call_frame Fixture.image Fixture.get_array
              Fixture.to_sitk Fixture.resect (Fixture.config true)
              (Fixture.world_of 4 Fixture.full_sample)
              (w_sample (snd (Fixture.call (Fixture.config true)
                                (Fixture.world_of 4 Fixture.full_sample))))
              (snd (Fixture.call (Fixture.config true)
                      (Fixture.world_of 4 Fixture.full_sample))))
    as (Hgone & Hkept & _).
  { vm_compute. reflexivity. }
  split.
  - apply Hgone. reflexivity.
  - rewrite Hkept.
    + vm_compute. reflexivity.
    + reflexivity.
    + apply (bool_decide_unpack _). vm_compute. exact I.
    + apply (bool_decide_unpack _). vm_compute. exact I.
Defined.


(** * Further properties *)

(** ** Transposition ([sitk_to_array]) *)

Lemma length_flat_map_blocks {A} (f : nat → list A) (m s n : nat) :
  (∀ x, length (f x) = m) →
  length (flat_map f (seq s n)) = n * m.
Proof.
  intros Hf. revert s. induction n as [|n IH]; intros s; cbn; [done|].
  by rewrite length_app, Hf, IH.
Qed.

Lemma nth_flat_map_blocks {A} (f : nat → list A) (m s n i r : nat) (d : A) :
  (∀ x, length (f x) = m) → i < n → r < m →
  nth (i * m + r) (flat_map f (seq s n)) d = nth r (f (s + i)) d.
Proof.
  intros Hf. revert s i. induction n as [|n IH]; intros s i Hi Hr; [lia|].
  cbn [seq flat_map]. destruct i as [|i].
  - rewrite Nat.add_0_r. cbn. rewrite app_nth1 by (rewrite Hf; lia). done.
  - rewrite app_nth2 by (rewrite Hf; lia). rewrite Hf.
    replace (S i * m + r - m) with (i * m + r) by lia.
    rewrite IH by lia. f_equal. f_equal. lia.
Qed.

Lemma nth_map_seq {A} (f : nat → A) (n k : nat) (d : A) :
  k < n → nth k (map f (seq 0 n)) d = f k.
Proof.
  intros Hk.
  rewrite (nth_indep _ d (f 0)) by (rewrite length_map, length_seq; lia).
  rewrite map_nth. by rewrite seq_nth.
Qed.

Lemma transpose_210_spec (a t : ndarray) :
  transpose_210 a = inr t →
  ∃ n0 n1 n2,
    shape a = [n0; n1; n2] ∧ shape t = [n2; n1; n0] ∧ well_shaped t ∧
    ∀ i j k, i < n2 → j < n1 → k < n0 → at3 t i j k = at3 a k j i.
Proof.
  unfold transpose_210.
  destruct (shape a) as [|n0 [|n1 [|n2 [|n3 s]]]] eqn:Hs; intros [= <-].
  exists n0, n1, n2. split; [done|]. split; [done|].
  assert (Hin : ∀ (i x : nat),
           length (map (λ k, nth (k * (n1 * n2) + x * n2 + i) (data a) 0%Q)
                     (seq 0 n0)) = n0).
  { intros. by rewrite length_map, length_seq. }
  assert (Hmid : ∀ i : nat,
           length (flat_map (λ j,
                     map (λ k, nth (k * (n1 * n2) + j * n2 + i) (data a) 0%Q)
                       (seq 0 n0)) (seq 0 n1)) = n1 * n0).
  { intros i. by apply length_flat_map_blocks. }
  split.
  - unfold well_shaped; cbn.
    rewrite (length_flat_map_blocks _ (n1 * n0)) by done. lia.
  - intros i j k Hi Hj Hk. unfold at3. rewrite Hs. cbn [shape data].
    replace (i * (n1 * n0) + j * n0 + k) with (i * (n1 * n0) + (j * n0 + k))
      by lia.
    rewrite (nth_flat_map_blocks _ (n1 * n0)) by (done || nia).
    rewrite (nth_flat_map_blocks _ n0) by done.
    cbn [Nat.add]. by rewrite nth_map_seq.
Qed.

Lemma index3_decompose (n0 n1 n2 idx : nat) :
  idx < n0 * (n1 * n2) →
  ∃ i j k, i < n0 ∧ j < n1 ∧ k < n2 ∧ idx = i * (n1 * n2) + j * n2 + k.
Proof.
  intros Hidx.
  assert (H2 : 0 < n2) by nia. assert (H1 : 0 < n1) by nia.
  exists (idx / (n1 * n2)), (idx mod (n1 * n2) / n2), (idx mod n2).
  pose proof (Nat.div_mod_eq idx (n1 * n2)) as E1.
  pose proof (Nat.mod_upper_bound idx (n1 * n2) ltac:(nia)) as B1.
  pose proof (Nat.div_mod_eq (idx mod (n1 * n2)) n2) as E2.
  pose proof (Nat.mod_upper_bound (idx mod (n1 * n2)) n2 ltac:(lia)) as B2.
  assert (E3 : idx mod (n1 * n2) mod n2 = idx mod n2).
  { rewrite (Nat.mul_comm n1 n2). rewrite Nat.Div0.mod_mul_r.
    rewrite Nat.mul_comm, Nat.Div0.mod_add. apply Nat.Div0.mod_mod. }
  rewrite E3 in E2, B2.
  repeat split.
  - apply Nat.Div0.div_lt_upper_bound. lia.
  - apply Nat.Div0.div_lt_upper_bound. lia.
  - done.
  - nia.
Qed.

Lemma lookup_nth_lt (l : list Q) (i : nat) :
  i < length l → l !! i = Some (nth i l 0%Q).
Proof.
  intros Hi. destruct (nth_lookup_or_length l i 0%Q) as [H|H]; [done|lia].
Qed.

(** X1. [array.transpose(2, 1, 0)] returns exactly for arrays with three
    axes: the result has the axes in reverse order, holds as many elements
    as its shape says, and its element [i, j, k] is the element [k, j, i]
    of the input. Any other number of axes raises [ValueError]. *)
Theorem transpose_210_reverses_axes (a : ndarray) :
  match transpose_210 a with
  | inr t =>
      ∃ n0 n1 n2,
        shape a = [n0; n1; n2] ∧ shape t = [n2; n1; n0] ∧ well_shaped t ∧
        ∀ i j k, i < n2 → j < n1 → k < n0 → at3 t i j k = at3 a k j i
  | inl e => ndim a ≠ 3 ∧ ∃ msg, e = ValueError msg
  end.
Proof.
  destruct (transpose_210 a) as [e|t] eqn:Ht.
  - unfold transpose_210, ndim in *.
    destruct (shape a) as [|n0 [|n1 [|n2 [|n3 s]]]]; try discriminate;
      injection Ht as <-; split; eauto; cbn; lia.
  - by apply transpose_210_spec.
Qed.

(** X2. Transposing twice gives the array back: on an array that holds as
    many elements as its shape says, [transpose(2, 1, 0)] is its own
    inverse. *)
Theorem transpose_210_involutive (a t : ndarray) :
  well_shaped a → transpose_210 a = inr t → transpose_210 t = inr a.
Proof.
  intros Hw Ht.
  destruct (transpose_210_spec a t Ht)
    as (n0 & n1 & n2 & Hsa & Hst & Hwt & Hel).
  destruct (transpose_210 t) as [e|tt] eqn:Htt.
  { unfold transpose_210 in Htt. by rewrite Hst in Htt. }
  destruct (transpose_210_spec t tt Htt)
    as (m0 & m1 & m2 & Hst' & Hstt & Hwtt & Hel').
  rewrite Hst in Hst'. injection Hst' as <- <- <-.
  f_equal. destruct a as [sa da], tt as [stt dtt]. cbn in *. subst sa stt.
  f_equal. unfold well_shaped in Hw, Hwtt. cbn in Hw, Hwtt.
  rewrite Nat.mul_1_r in Hw, Hwtt.
  apply list_eq. intros idx.
  destruct (decide (idx < n0 * (n1 * n2))) as [Hlt|Hge].
  - destruct (index3_decompose n0 n1 n2 idx Hlt)
      as (i & j & k & Hi & Hj & Hk & ->).
    rewrite !lookup_nth_lt by lia. f_equal.
    specialize (Hel' i j k Hi Hj Hk). specialize (Hel k j i Hk Hj Hi).
    unfold at3 at 1 in Hel'. unfold at3 at 2 in Hel. cbn in Hel', Hel.
    congruence.
  - rewrite !lookup_ge_None_2 by lia. done.
Qed.

Lemma transpose_210_involutive_witness :
  transpose_210 {| shape := [3; 2; 1];
                   data := [1; 4; 2; 5; 3; 6]%Q |}
  = inr {| shape := [1; 2; 3]; data := [1; 2; 3; 4; 5; 6]%Q |}.
Proof.
  apply (transpose_210_involutive
           {| shape := [1; 2; 3]; data := [1; 2; 3; 4; 5; 6]%Q |}).
  - reflexivity.
  - reflexivity.
Defined.

(** ** Channel bookkeeping *)

(** X3. The two assertions of [__call__] cannot fail: an array that
    [sitk_to_array] returned has four axes once the channel axis is added,
    and its label has four axes as well; both hold as many elements as
    their shapes say, and building the label never raises. *)
Theorem resected_arrays_pass_assertions (src array : ndarray) :
  transpose_210 src = inr array →
  ndim (add_channels_axis array) = 4 ∧
  well_shaped (add_channels_axis array) ∧
  ∃ label, add_background_channel array = inr label ∧ ndim label = 4 ∧
           well_shaped label.
Proof.
  intros Ht.
  destruct (transpose_210_spec src array Ht)
    as (n0 & n1 & n2 & _ & Hs & Hw & _).
  unfold well_shaped in *. unfold ndim. cbn [add_channels_axis shape data].
  rewrite Hs. split; [done|]. split; [cbn; rewrite Hw, Hs; cbn; lia|].
  eexists. split; [apply add_background_channel_eq|].
  cbn [shape data]. rewrite Hs. split; [done|].
  rewrite length_app, length_map, Hw, Hs. cbn. lia.
Qed.

Lemma resected_arrays_pass_assertions_witness :
  ndim (add_channels_axis
          {| shape := [3; 2; 1]; data := [1; 4; 2; 5; 3; 6]%Q |}) = 4 ∧
  well_shaped (add_channels_axis
                 {| shape := [3; 2; 1]; data := [1; 4; 2; 5; 3; 6]%Q |}) ∧
  ∃ label,
    add_background_channel
      {| shape := [3; 2; 1]; data := [1; 4; 2; 5; 3; 6]%Q |} = inr label ∧
    ndim label = 4 ∧ well_shaped label.
Proof.
  apply (resected_arrays_pass_assertions
           {| shape := [1; 2; 3]; data := [1; 2; 3; 4; 5; 6]%Q |}).
  reflexivity.
Defined.

(** X4. The image a call writes has the layout the call reads: indexing
    the written image at [0], as [sample['image'][0]] does, gives back the
    three-axis resected array. *)
Theorem written_image_reads_back (src array : ndarray) :
  transpose_210 src = inr array →
  getitem0 (VArray (add_channels_axis array)) = inr (VArray array).
Proof.
  intros Ht.
  destruct (transpose_210_spec src array Ht)
    as (n0 & n1 & n2 & _ & Hs & Hw & _).
  unfold getitem0, slice, add_channels_axis. cbn [shape data].
  rewrite decide_True by lia. rewrite Nat.mul_0_l, drop_0.
  rewrite take_ge by (unfold well_shaped in Hw; lia). by destruct array.
Qed.

Lemma written_image_reads_back_witness :
  getitem0 (VArray (add_channels_axis
                      {| shape := [3; 2; 1];
                         data := [1; 4; 2; 5; 3; 6]%Q |}))
  = inr (VArray {| shape := [3; 2; 1]; data := [1; 4; 2; 5; 3; 6]%Q |}).
Proof.
  apply (written_image_reads_back
           {| shape := [1; 2; 3]; data := [1; 2; 3; 4; 5; 6]%Q |}).
  reflexivity.
Defined.

Lemma binary_complement_iff (v : Q) : binary (1 - v)%Q ↔ binary v.
Proof.
  split; [|apply binary_complement].
  intros [H|H]; [right|left]; lra.
Qed.

(** X5. [add_background_channel] never raises and does not threshold: the
    label it returns is binary exactly when the mask it was given is. *)
Theorem label_binary_iff_mask_binary (fg : ndarray) :
  ∃ label, add_background_channel fg = inr label ∧
    (Forall binary (data label) ↔ Forall binary (data fg)).
Proof.
  eexists. split; [apply add_background_channel_eq|]. cbn [data].
  rewrite Forall_app, Forall_map. split; [by intros [_ H]|].
  intros H. split; [|done]. eapply Forall_impl; [exact H|].
  intros v Hv. by apply binary_complement_iff.
Qed.

(** ** Sampling: errors and independence *)




(** X7. How the volume is chosen does not disturb the other parameters:
    two samplings from the same generator state that differ only in catalog
    and volume range leave the generator in the same state and agree on
    every key of the dictionary other than the volume. *)
Theorem get_params_volume_source_independent
    vs1 vr1 vs2 vr2 sr rr ar g p1 g1 p2 g2 :
  get_params vs1 vr1 sr rr ar g = (inr p1, g1) →
  get_params vs2 vr2 sr rr ar g = (inr p2, g2) →
  g1 = g2 ∧ ∀ k, k ≠ "volume" → p1 !! k = p2 !! k.
Proof.
  intros H1 H2.
  destruct (get_params_inv _ _ _ _ _ _ _ _ H1) as (v1 & _ & -> & ->).
  destruct (get_params_inv _ _ _ _ _ _ _ _ H2) as (v2 & _ & -> & ->).
  split; [done|]. intros k Hk. unfold params_at.
  rewrite !lookup_insert. repeat case_decide; done.
Qed.

Lemma get_params_volume_source_independent_witness :
  params_at (Fixture.cycle8 3) 4000 default_sigmas_range
    default_radii_ratio_range default_angles_range !! "sigmas"
  = params_at (Fixture.cycle8 3) (scale 50 5000 (4 # 8)) default_sigmas_range
      default_radii_ratio_range default_angles_range !! "sigmas".
Proof.
  apply (get_params_volume_source_independent
           (Some [120; 4000]%Q) None None (Some (50, 5000)%Q)
           default_sigmas_range default_radii_ratio_range
           default_angles_range (Fixture.cycle8 3)
           _ (skip 9 (Fixture.cycle8 3)) _ (skip 9 (Fixture.cycle8 3))).
  - reflexivity.
  - reflexivity.
  - discriminate.
Defined.

Lemma default_ranges_ok :
  ranges_ok default_sigmas_range default_radii_ratio_range
    default_angles_range = true.
Proof. vm_compute. reflexivity. Qed.



(** X15. [get_params] has no check on the sign of the volume. A catalog
    entry is returned as it is, whatever its sign, and a volume range with
    both bounds [<= 0] gives a volume [<= 0]; in both cases the sampler
    returns its dictionary and raises nothing. *)
Theorem get_params_returns_nonpositive_volume sr rr ar g :
  unit_draws g → ranges_ok sr rr ar = true →
  (∀ l vr v,
     l !! index_of (length l) (draw g 1) = Some v →
     ∃ p, get_params (Some l) vr sr rr ar g = (inr p, skip 9 g) ∧
          p !! "volume" = Some (PNum v)) ∧
  (∀ lo hi,
     range_ok lo hi = true → (hi <= 0)%Q →
     ∃ p v, get_params None (Some (lo, hi)) sr rr ar g
            = (inr p, skip 9 g) ∧
            p !! "volume" = Some (PNum v) ∧ (v <= 0)%Q).
Proof.
  intros Hu Hr. split.
  - intros l vr v Hv. eexists. split.
    + by apply get_params_ok.
    + apply params_at_lookup.
  - intros lo hi Hok Hhi.
    destruct (unit_draws_draw g 1 Hu) as (H0 & H1 & _).
    destruct (scale_in_range32 lo hi (draw g 1) (range_ok_le _ _ Hok) H0 H1)
      as [_ B]. cbn [fst snd] in B.
    pose proof (round32_nonpos hi Hhi) as Hn.
    eexists _, _. split.
    { apply get_params_ok; [|exact Hr]. unfold volume_at. by rewrite Hok. }
    split; [apply params_at_lookup|]. lra.
Qed.

Lemma get_params_returns_nonpositive_volume_witness :
  ∃ p, get_params (Some [(-1)%Q]) None default_sigmas_range
         default_radii_ratio_range default_angles_range (Fixture.cycle8 0)
       = (inr p, skip 9 (Fixture.cycle8 0)) ∧
       p !! "volume" = Some (PNum (-1)).
Proof.
  destruct (get_params_returns_nonpositive_volume default_sigmas_range
              default_radii_ratio_range default_angles_range
              (Fixture.cycle8 0) (cycle8_unit_draws 0) default_ranges_ok)
    as [Hcat _].
  apply (Hcat [(-1)%Q] None (-1)%Q). vm_compute. reflexivity.
Defined.


(** ** Runs of [__call__] *)

Lemma sim_bind {A B} (c1 c2 : M world A) (k1 k2 : A → M world B) :
  sim c1 c2 → (∀ a, sim (k1 a) (k2 a)) → sim (bind c1 k1) (bind c2 k2).
Proof.
  intros Hc Hk w1 w2 Hw. unfold bind.
  destruct (Hc w1 w2 Hw) as [Hfst Hsnd].
  destruct (c1 w1) as [[e1|a1] s1], (c2 w2) as [[e2|a2] s2];
    cbn in Hfst, Hsnd; try discriminate.
  - by injection Hfst as <-.
  - injection Hfst as <-. by apply Hk.
Qed.

Lemma sim_sample_get key : sim (sample_get key) (sample_get key).
Proof.
  intros w1 w2 [Hr Hs]. unfold sample_get. rewrite Hs.
  by destruct (w_sample w2 !! key).
Qed.

Lemma sim_of_sum {A} (x : exn + A) : sim (of_sum x) (of_sum x).
Proof. intros w1 w2 Hw. by destruct x. Qed.

Lemma sim_dict_get p key : sim (dict_get p key) (dict_get p key).
Proof. intros w1 w2 Hw. unfold dict_get. by destruct (p !! key). Qed.

Lemma sim_format_field v : sim (format_field v) (format_field v).
Proof. intros w1 w2 Hw. by destruct v. Qed.

Lemma sim_assert b : sim (assert b) (assert b).
Proof. intros w1 w2 Hw. by destruct b. Qed.

Lemma sim_lift_rng {A} (c : M rng A) : sim (lift_rng c) (lift_rng c).
Proof.
  intros w1 w2 [Hr Hs]. unfold lift_rng. rewrite Hr.
  by destruct (c (w_rng w2)).
Qed.

Lemma sim_sample_set key v : sim (sample_set key v) (sample_set key v).
Proof.
  intros w1 w2 [Hr Hs]. split; [done|]. split; cbn; [done|by rewrite Hs].
Qed.

Lemma sim_sample_del key : sim (sample_del key) (sample_del key).
Proof.
  intros w1 w2 [Hr Hs]. unfold sample_del. rewrite Hs.
  destruct (w_sample w2 !! key); [|done].
  split; [done|]. split; cbn; [done|by rewrite Hs].
Qed.

Lemma sim_print b1 b2 line : sim (when b1 (print line)) (when b2 (print line)).
Proof. intros w1 w2 [Hr Hs]. by destruct b1, b2. Qed.

Lemma sample_del_rng key w r w1 :
  sample_del key w = (r, w1) → w_rng w1 = w_rng w.
Proof.
  unfold sample_del. by destruct (w_sample w !! key); intros [= <- <-].
Qed.

Section TransformRuns.
Variable SitkImage : Type.
Variable GetArrayFromImage : SitkImage → ndarray.
Variable nib_to_sitk : value → value → exn + SitkImage.
Variable _resect :
  SitkImage → SitkImage → SitkImage → SitkImage →
  pvalue → pvalue → pvalue → pvalue → bool →
  M rng (SitkImage * SitkImage * pvalue).

Local Abbreviation call :=
  (__call__ SitkImage GetArrayFromImage nib_to_sitk _resect).

Lemma call_get_params_fails self w e g :
  get_params (volumes self) (volumes_range self) (sigmas_range self)
    (radii_ratio_range self) (angles_range self) (w_rng w) = (inl e, g) →
  call self w = (inl e, with_rng g w).
Proof.
  intros Hgp. unfold __call__. unfold bind at 1. unfold lift_rng.
  by rewrite Hgp.
Qed.

(** X9. An empty catalog passes the constructor, which only tests for
    [None], and then every call fails: [get_params] raises when it draws
    the index, after the coin flip, and the sample is not touched and
    nothing is printed. *)
Theorem empty_catalog_constructs_and_fails sr rr ar dk vb g :
  ∃ self,
    __init__ None (Some []) sr rr ar dk vb g = (inr self, g) ∧
    ∀ w, call self w = (inl RuntimeError, with_rng (skip 1 (w_rng w)) w).
Proof.
  eexists. split; [reflexivity|]. intros w.
  by apply call_get_params_fails.
Qed.

(** X10. Sampling comes before the first read of the sample: when the
    configuration can be sampled and [uniform_] accepts the three ranges, a
    call on a sample without "image" raises [KeyError] for that key, the
    sample is as it was, and the nine draws of [get_params] are consumed
    all the same. *)
Theorem call_without_image self w :
  samplable (volumes self) (volumes_range self) →
  ranges_ok (sigmas_range self) (radii_ratio_range self) (angles_range self)
  = true →
  unit_draws (w_rng w) →
  w_sample w !! "image" = None →
  call self w = (inl (KeyError "image"), with_rng (skip 9 (w_rng w)) w).
Proof.
  intros Hs Hr Hu Himg.
  destruct (volume_at_samplable _ _ _ Hs Hu) as [v Hv].
  unfold __call__. unfold bind at 1. unfold lift_rng.
  rewrite (get_params_ok _ _ _ _ _ _ _ Hv Hr).
  unfold bind at 1. unfold sample_get. cbn [w_sample]. by rewrite Himg.
Qed.

(** X11. With [delete_keys] on, the transform cannot be applied to its own
    output: the sample a successful call returns has lost the keys the
    next call deletes, so no second call with [delete_keys] on returns. *)
Theorem call_not_repeatable self w s w' self2 w2 s2 w2' :
  call self w = (inr s, w') → delete_keys self = true →
  delete_keys self2 = true → w_sample w2 = s →
  call self2 w2 ≠ (inr s2, w2').
Proof.
  intros Hrun Hdk Hdk2 Hsame Hrun2.
  destruct (call_inr _ _ _ _ _ _ _ _ Hrun)
    as (params & g1 & brain & gm & rmask & noise & vol & sig & rat & ang
        & rb & rm & center & g2 & barr & marr & label & _ & _ & _
        & _ & _ & _ & _ & _ & _ & -> & Hfinal).
  destruct (call_inr _ _ _ _ _ _ _ _ Hrun2)
    as (params' & g1' & brain' & gm' & rmask' & noise' & vol' & sig' & rat'
        & ang' & rb' & rm' & center' & g2' & barr' & marr' & label' & _ & _
        & _ & _ & _ & _ & _ & _ & _ & _ & Hfinal2).
  cbn zeta in Hfinal, Hfinal2. rewrite Hdk in Hfinal. rewrite Hdk2 in Hfinal2.
  destruct Hfinal as [_ Hgone]. destruct Hfinal2 as [Hall _].
  rewrite Hsame, Hgone in Hall. unfold consumed_keys in Hall.
  apply Forall_cons in Hall as [[v Hv] _].
  unfold without_consumed in Hv. by simplify_map_eq.
Qed.

Ltac read_step H :=
  let Hc := fresh "Hc" in
  let a := fresh "a" in
  let w1 := fresh "w" in
  apply bind_inr in H as (a & w1 & Hc & H);
  first [ apply sample_get_inr in Hc as [-> Hc]
        | apply of_sum_inr in Hc as [-> Hc]
        | apply dict_get_inr in Hc as [-> Hc]
        | apply format_field_inr in Hc as [-> Hc]
        | apply assert_inr in Hc as [-> Hc] ];
  cbn beta zeta in H.

(** X12. What a successful call hands to [_resect]: the first channel of
    "image", the gray-matter and resectable masks of the sampled hemisphere
    only, and "noise", each converted by [nib_to_sitk] with the sample's
    "affine", then the sampled volume, sigmas, radii ratio and angles, and
    the generator as [get_params] left it. The call draws nothing itself:
    the generator it leaves is the one [_resect] returned. *)
Theorem call_data_flow self w s w' :
  call self w = (inr s, w') →
  ∃ params g1 h image image0 affine gray resectable noise
    brain gm_mask res_mask noise_image vol sig rat ang rb rm center g2,
    get_params (volumes self) (volumes_range self) (sigmas_range self)
      (radii_ratio_range self) (angles_range self) (w_rng w)
    = (inr params, g1) ∧
    params !! "hemisphere" = Some (PStr h) ∧ (h = "left" ∨ h = "right") ∧
    w_sample w !! "image" = Some image ∧ getitem0 image = inr image0 ∧
    w_sample w !! "affine" = Some affine ∧
    nib_to_sitk image0 affine = inr brain ∧
    w_sample w !! ("gray_matter_" +:+ h) = Some gray ∧
    nib_to_sitk gray affine = inr gm_mask ∧
    w_sample w !! ("resectable_" +:+ h) = Some resectable ∧
    nib_to_sitk resectable affine = inr res_mask ∧
    w_sample w !! "noise" = Some noise ∧
    nib_to_sitk noise affine = inr noise_image ∧
    params !! "volume" = Some vol ∧ params !! "sigmas" = Some sig ∧
    params !! "radii_ratio" = Some rat ∧ params !! "angles" = Some ang ∧
    _resect brain gm_mask res_mask noise_image vol sig rat ang (verbose self)
      g1
    = (inr (rb, rm, center), g2) ∧
    w_rng w' = g2.
Proof.
  intros H. unfold __call__ in H.
  apply bind_inr in H as (params & w1 & Hc & H).
  apply lift_rng_inr in Hc as (g1 & Hparams & Hg1 & Hs1).
  do 15 read_step H.
  apply bind_inr in H as (u1 & w2 & Hp1 & H).
  apply when_print_inr in Hp1 as [Hg2 Hs2].
  do 4 read_step H.
  apply bind_inr in H as ([[rb rm] center] & w3 & Hr & H).
  apply lift_rng_inr in Hr as (g2 & Hresect & Hg3 & Hs3).
  rewrite Hg2, Hg1 in Hresect. cbn beta iota zeta in H.
  do 5 read_step H.
  apply bind_inr in H as (u2 & w4 & Hset1 & H).
  apply sample_set_inr in Hset1 as [Hr4 _].
  apply bind_inr in H as (u3 & w5 & Hset2 & H).
  apply sample_set_inr in Hset2 as [Hr5 _].
  apply bind_inr in H as (u4 & w6 & Hset3 & H).
  apply sample_set_inr in Hset3 as [Hr6 _].
  apply bind_inr in H as (u5 & w7 & Hdel & H).
  apply bind_inr in H as (u6 & w8 & Hp2 & H).
  apply when_print_inr in Hp2 as [Hr8 _].
  injection H as _ <-.
  assert (Hr7 : w_rng w7 = w_rng w6).
  { destruct (delete_keys self); cbn [when] in Hdel;
      [|by inversion Hdel].
    apply bind_inr in Hdel as (? & d1 & Hd1 & Hdel).
    apply bind_inr in Hdel as (? & d2 & Hd2 & Hdel).
    apply bind_inr in Hdel as (? & d3 & Hd3 & Hdel).
    apply bind_inr in Hdel as (? & d4 & Hd4 & Hdel).
    apply sample_del_rng in Hd1, Hd2, Hd3, Hd4, Hdel. congruence. }
  rewrite Hs1 in Hc, Hc1, Hc5, Hc6, Hc8, Hc9, Hc11, Hc12.
  assert (a6 = a1) as -> by congruence.
  assert (a9 = a1) as -> by congruence.
  assert (a12 = a1) as -> by congruence.
  subst a3.
  assert (Hh : a4 = "left" ∨ a4 = "right").
  { destruct (get_params_inv _ _ _ _ _ _ _ _ Hparams) as (v & _ & Hp & _).
    rewrite Hp in Hc3.
    destruct (params_at_lookup (w_rng w) v (sigmas_range self)
                (radii_ratio_range self) (angles_range self)) as (Hl & _).
    rewrite Hl in Hc3. injection Hc3 as <-.
    destruct (hemisphere_at (w_rng w)); cbn; eauto. }
  exists params, g1, a4, a, a0, a1, a5, a8, a11, a2, a7, a10, a13,
    a14, a15, a16, a17, rb, rm, center, g2.
  repeat (split; [done|]). congruence.
Qed.

(** X13. [verbose] changes only what is printed: if [_resect] computes the
    same with its [verbose] argument on and off, then a call with
    [verbose] on and one with [verbose] off, from the same state, give the
    same result or the same exception, the same sample and the same
    generator state. *)
Theorem verbose_only_prints self w :
  (∀ brain gm rmask noise vol sig rat ang,
     _resect brain gm rmask noise vol sig rat ang true
     = _resect brain gm rmask noise vol sig rat ang false) →
  fst (call (set_verbose true self) w)
  = fst (call (set_verbose false self) w) ∧
  w_rng (snd (call (set_verbose true self) w))
  = w_rng (snd (call (set_verbose false self) w)) ∧
  w_sample (snd (call (set_verbose true self) w))
  = w_sample (snd (call (set_verbose false self) w)).
Proof.
  intros Hquiet.
  assert (Hsim : sim (call (set_verbose true self))
                     (call (set_verbose false self))).
  { unfold __call__. cbn [set_verbose volumes volumes_range sigmas_range
      radii_ratio_range angles_range delete_keys verbose].
    do 21 (apply sim_bind;
      [first [ apply sim_sample_get | apply sim_of_sum | apply sim_dict_get
             | apply sim_format_field | apply sim_lift_rng
             | apply sim_print ]
      | intros ? ]).
    rewrite Hquiet. apply sim_bind; [apply sim_lift_rng|].
    intros [[rb rm] center].
    do 5 (apply sim_bind;
      [first [apply sim_of_sum | apply sim_assert] | intros ?]).
    do 3 (apply sim_bind; [apply sim_sample_set | intros ?]).
    apply sim_bind.
    { destruct (delete_keys self); cbn [when].
      - do 4 (apply sim_bind; [apply sim_sample_del | intros ?]).
        apply sim_sample_del.
      - by intros w1 w2 Hw. }
    intros ?. apply sim_bind; [apply sim_print|].
    intros ? w1 w2 [Hr Hs]. cbn [fst snd]. rewrite Hs.
    split; [reflexivity|]. split; assumption. }
  destruct (Hsim w w (conj eq_refl eq_refl)) as (Hfst & Hr & Hs).
  split; [exact Hfst|]. split; [exact Hr|exact Hs].
Qed.

End TransformRuns.

(** ** Concrete runs, continued *)

Lemma call_without_image_witness :
  Fixture.call (Fixture.config true)
    (Fixture.world_of 0 (delete "image" Fixture.full_sample))
  = (inl (KeyError "image"),
     with_rng (skip 9 (Fixture.cycle8 0))
       (Fixture.world_of 0 (delete "image" Fixture.full_sample))).
Proof.
  apply (call_without_image Fixture.image Fixture.get_array Fixture.to_sitk
           Fixture.resect (Fixture.config true)
           (Fixture.world_of 0 (delete "image" Fixture.full_sample))).
  - cbn. eauto.
  - vm_compute. reflexivity.
  - apply cycle8_unit_draws.
  - vm_compute. reflexivity.
Defined.

Lemma call_not_repeatable_witness :
  Fixture.call (Fixture.config true)
    (snd (Fixture.call (Fixture.config true)
            (Fixture.world_of 4 Fixture.full_sample)))
  ≠ (inr ∅, Fixture.world_of 4 Fixture.full_sample).
Proof.
  apply (call_not_repeatable Fixture.image Fixture.get_array Fixture.to_sitk
           Fixture.resect (Fixture.config true)
           (Fixture.world_of 4 Fixture.full_sample)
           (w_sample (snd (Fixture.call (Fixture.config true)
                             (Fixture.world_of 4 Fixture.full_sample))))
           (snd (Fixture.call (Fixture.config true)
                   (Fixture.world_of 4 Fixture.full_sample)))).
  - vm_compute. reflexivity.
  - reflexivity.
  - reflexivity.
  - reflexivity.
Defined.

Lemma call_data_flow_witness :
  ∃ h gray,
    (h = "left" ∨ h = "right") ∧
    Fixture.full_sample !! ("gray_matter_" +:+ h) = Some gray.
Proof.
  destruct (call_data_flow Fixture.image Fixture.get_array Fixture.to_sitk
              Fixture.resect (Fixture.config true)
              (Fixture.world_of 4 Fixture.full_sample)
              (w_sample (snd (Fixture.call (Fixture.config true)
                                (Fixture.world_of 4 Fixture.full_sample))))
              (snd (Fixture.call (Fixture.config true)
                      (Fixture.world_of 4 Fixture.full_sample))))
    as (params & g1 & h & image & image0 & affine & gray & resectable
        & noise & brain & gm_mask & res_mask & noise_image & vol & sig
        & rat & ang & rb & rm & center & g2 & _ & _ & Hh & _ & _ & _ & _
        & Hgray & _).
  { vm_compute. reflexivity. }
  exists h, gray. split; [exact Hh | exact Hgray].
Defined.

Lemma verbose_only_prints_witness :
  fst (Fixture.call (set_verbose true (Fixture.config true))
         (Fixture.world_of 4 Fixture.full_sample))
  = fst (Fixture.call (set_verbose false (Fixture.config true))
           (Fixture.world_of 4 Fixture.full_sample)) ∧
  w_rng (snd (Fixture.call (set_verbose true (Fixture.config true))
                (Fixture.world_of 4 Fixture.full_sample)))
  = w_rng (snd (Fixture.call (set_verbose false (Fixture.config true))
                  (Fixture.world_of 4 Fixture.full_sample))) ∧
  w_sample (snd (Fixture.call (set_verbose true (Fixture.config true))
                   (Fixture.world_of 4 Fixture.full_sample)))
  = w_sample (snd (Fixture.call (set_verbose false (Fixture.config true))
                     (Fixture.world_of 4 Fixture.full_sample))).
Proof.
  apply (verbose_only_prints Fixture.image Fixture.get_array Fixture.to_sitk
           Fixture.resect (Fixture.config true)
           (Fixture.world_of 4 Fixture.full_sample)).
  reflexivity.
Defined.

Section TransformDiagnosis.
Variable SitkImage : Type.
Variable GetArrayFromImage : SitkImage → ndarray.
Variable nib_to_sitk : value → value → exn + SitkImage.
Variable _resect :
  SitkImage → SitkImage → SitkImage → SitkImage →
  pvalue → pvalue → pvalue → pvalue → bool →
  M rng (SitkImage * SitkImage * pvalue).

(** X14. The only failing call that changes the sample is one that fails
    while deleting: [delete_keys] is on, the exception is [KeyError] for one
    of the five consumed keys, and that key was missing from the sample the
    call was given. *)
Theorem call_failure_after_write_is_missing_key self w e w' :
  __call__ SitkImage GetArrayFromImage nib_to_sitk _resect self w
  = (inl e, w') →
  w_sample w' ≠ w_sample w →
  delete_keys self = true ∧
  ∃ k, k ∈ consumed_keys ∧ w_sample w !! k = None ∧ e = KeyError k.
Proof.
  intros Hrun Hchanged.
  destruct (call_inl _ _ _ _ self w e w' Hrun) as [Hkeep | Hdel]; done.
Qed.

End TransformDiagnosis.

Lemma call_failure_after_write_is_missing_key_witness :
  ∃ k, k ∈ consumed_keys ∧ Fixture.left_only_sample !! k = None ∧
       KeyError "gray_matter_right" = KeyError k.
Proof.
  apply (call_failure_after_write_is_missing_key Fixture.image
           Fixture.get_array Fixture.to_sitk Fixture.resect
           (Fixture.config true)
           (Fixture.world_of 4 Fixture.left_only_sample)
           (KeyError "gray_matter_right")
           (snd (Fixture.call (Fixture.config true)
                   (Fixture.world_of 4 Fixture.left_only_sample)))).
  - vm_compute. reflexivity.
  - intros Heq. apply (f_equal (λ m, m !! "label")) in Heq.
    vm_compute in Heq. discriminate.
Defined.
